(** * cxxmetrics: the typed metrics registry and the concurrent skiplist

    A shallow embedding of [src/src/metrics_registry.hpp] (the registry,
    its per-path containers [registered_metric] and the repository
    [basic_default_repository]) and of the skiplist exercised by
    [src/test/skiplist_test.cpp].

    Modelling conventions.
    - Every public operation runs to completion before the next one starts;
      the registry and container mutexes are recorded as events in a trace,
      together with the other observable effects (builder invocations,
      handler and visitor calls).
    - A C++ exception is the [inl] branch of the result; state changes made
      before the throw stay, as they do in C++.
    - [std::unordered_map] is a stdpp [gmap]; its (unspecified) iteration
      order is [map_to_list].
    - Instruments live in a store of addresses ([loc]); a reference returned
      to the caller is its address, so reference identity is address
      equality. *)

From Stdlib Require Import ZArith Lia.
From stdpp Require Import base gmap list strings sorting.

Open Scope Z_scope.

(* ------------------------------------------------------------------ *)
(** ** Paths, tags, instruments *)

(** [metric_path]: an ordered sequence of name segments. *)
Definition metric_path := list string.

(** [tag_collection]: the canonical (sorted) list of name/value pairs. *)
Definition tag_collection := list (string * string).

(** Addresses of instruments: the nodes of the containers' unordered maps. *)
Definition loc := N.

(** The instrument kinds the registry hands out: [counter<TCount>] and
    [ewma<TValue>], carrying the name of their template argument. *)
Inductive metric_kind :=
| KCounter (count_type : string)
| KEwma (value_type : string).

(** Instrument values. A counter holds its value; an EWMA its window and
    interval (in [steady_clock] ticks). *)
Inductive metric :=
| MCounter (value : Z)
| MEwma (window interval : Z).

(** The two exceptions of the registry. *)
Inductive error :=
| metric_type_mismatch (existing_type desired_type : string)
| invalid_parameter.

(** Modelled from the spec: the constructor of [ewma] (ewma.hpp is not in
    the sources). Section 7 of the spec: "invalid_parameter: EWMA with
    window <= 0 or interval > window or interval <= 0". *)
Definition ewma_new (window interval : Z) : error + metric :=
  if (window <=? 0) || (interval <=? 0) || (window <? interval)
  then inl invalid_parameter
  else inr (MEwma window interval).

(** Observable effects. *)
Inductive event :=
| RegistryLock
| RegistryUnlock
| ContainerLock (p : metric_path)
| ContainerUnlock (p : metric_path)
| Build (p : metric_path) (tags : tag_collection) (ok : bool)
| Handler (p : metric_path).

Global Instance event_eq_dec : EqDecision event.
Proof. solve_decision. Defined.

(** [registered_metric<T>]: the type name fixed at construction and the
    map [metrics_] from tags to the instrument (by address). *)
Record registered_metric := mkRegistered {
  type_ : string;
  metrics_ : gmap tag_collection loc
}.

(** The registry state: the repository map [metrics_] of
    [basic_default_repository], the instrument store, the next free address
    and the event trace. *)
Record registry := mkRegistry {
  repo_ : gmap metric_path registered_metric;
  store_ : gmap loc metric;
  next_ : loc;
  trace_ : list event
}.

Definition empty_registry : registry := mkRegistry ∅ ∅ 0%N [].

Definition emit (e : event) (s : registry) : registry :=
  mkRegistry (repo_ s) (store_ s) (next_ s) (trace_ s ++ [e]).

(* ------------------------------------------------------------------ *)
(** ** A state and exception monad *)

Definition M (A : Type) := registry -> (error + A) * registry.

Definition ret {A} (a : A) : M A := fun s => (inr a, s).
Definition throw {A} (e : error) : M A := fun s => (inl e, s).
Definition bind {A B} (m : M A) (f : A -> M B) : M B := fun s =>
  match m s with
  | (inl e, s') => (inl e, s')
  | (inr a, s') => f a s'
  end.

Notation "x <- m ;; k" := (bind m (fun x => k))
  (at level 100, m at next level, right associativity).

Section Registry.

(** [metric_default_value<T>().metric_type()]: the type name of each kind
    (counter.hpp and ewma.hpp are not in the sources, so every theorem
    holds for any naming). *)
Variable metric_type : metric_kind -> string.

(** [basic_default_repository::get_or_add]: under the registry lock, the
    existing container at [name], or the built one inserted. *)
Definition get_or_add (name : metric_path) (builder : registered_metric)
  : M registered_metric := fun s =>
  let s1 := emit RegistryLock s in
  match repo_ s1 !! name with
  | Some existing => (inr existing, emit RegistryUnlock s1)
  | None =>
      let s2 := mkRegistry (<[name := builder]> (repo_ s1)) (store_ s1)
                           (next_ s1) (trace_ s1) in
      (inr builder, emit RegistryUnlock s2)
  end.

(** [metrics_registry::get<T>(path)]. *)
Definition get (k : metric_kind) (path : metric_path) : M registered_metric :=
  let mtype := metric_type k in
  l <- get_or_add path (mkRegistered mtype ∅) ;;
  if String.eqb (type_ l) mtype then ret l
  else throw (metric_type_mismatch (type_ l) mtype).

(** [registered_metric<T>::child(tags, builder)], on the container [c]
    registered at [p]. The builder is the constructor call
    [T(args...)]: [inl] when it throws. *)
Definition child (p : metric_path) (c : registered_metric)
    (tags : tag_collection) (builder : error + metric) : M loc := fun s =>
  let s1 := emit (ContainerLock p) s in
  match metrics_ c !! tags with
  | Some res => (inr res, emit (ContainerUnlock p) s1)
  | None =>
      match builder with
      | inl e => (inl e, emit (ContainerUnlock p) (emit (Build p tags false) s1))
      | inr m =>
          let s2 := emit (Build p tags true) s1 in
          let l := next_ s2 in
          let c' := mkRegistered (type_ c) (<[tags := l]> (metrics_ c)) in
          let s3 := mkRegistry (<[p := c']> (repo_ s2)) (<[l := m]> (store_ s2))
                               (l + 1)%N (trace_ s2) in
          (inr l, emit (ContainerUnlock p) s3)
      end
  end.

(** [metrics_registry::get<T>(path, tags, args...)] with
    [basic_registered_metric::tagged]. *)
Definition get_tagged (k : metric_kind) (path : metric_path)
    (tags : tag_collection) (builder : error + metric) : M loc :=
  r <- get k path ;;
  child path r tags builder.

(** [metrics_registry::counter<TCount>(name, initialValue, tags)]. *)
Definition counter (count_type : string) (name : metric_path)
    (initialValue : Z) (tags : tag_collection) : M loc :=
  get_tagged (KCounter count_type) name tags (inr (MCounter initialValue)).

(** [metrics_registry::counter<TCount>(name, tags)]: the overload without an
    initial value, which forwards [0]. *)
Definition counter_default (count_type : string) (name : metric_path)
    (tags : tag_collection) : M loc :=
  counter count_type name 0 tags.

(** [metrics_registry::ewma<TValue>(name, window, interval, tags)]. *)
Definition ewma (value_type : string) (name : metric_path)
    (window interval : Z) (tags : tag_collection) : M loc :=
  get_tagged (KEwma value_type) name tags (ewma_new window interval).

(** [basic_default_repository::visit] (called by
    [metrics_registry::visit_registered_metrics]): the handler is called on
    each pair of the map while the [lock_guard] is held. *)
Definition visit (s : registry) : registry :=
  let s1 := emit RegistryLock s in
  let s2 := fold_left (fun acc pr => emit (Handler pr.1) acc)
                      (map_to_list (repo_ s1)) s1 in
  emit RegistryUnlock s2.

Definition visit_registered_metrics (s : registry) : registry := visit s.

(** The requests user code makes on the registry. *)
Inductive request :=
| RCounter (count_type : string) (name : metric_path) (init : Z)
    (tags : tag_collection)
| REwma (value_type : string) (name : metric_path) (window interval : Z)
    (tags : tag_collection).

Definition run_request (rq : request) : M loc :=
  match rq with
  | RCounter t p i tags => counter t p i tags
  | REwma t p w i tags => ewma t p w i tags
  end.

Definition run_requests (rqs : list request) (s : registry) : registry :=
  fold_left (fun acc rq => snd (run_request rq acc)) rqs s.

(** The instrument kind, path, tag set and constructor call of a request. *)
Definition request_kind (rq : request) : metric_kind :=
  match rq with
  | RCounter t _ _ _ => KCounter t
  | REwma t _ _ _ _ => KEwma t
  end.

Definition request_path (rq : request) : metric_path :=
  match rq with
  | RCounter _ p _ _ => p
  | REwma _ p _ _ _ => p
  end.

Definition request_tags (rq : request) : tag_collection :=
  match rq with
  | RCounter _ _ _ tags => tags
  | REwma _ _ _ _ tags => tags
  end.

Definition request_builder (rq : request) : error + metric :=
  match rq with
  | RCounter _ _ i _ => inr (MCounter i)
  | REwma _ _ w i _ => ewma_new w i
  end.

End Registry.

(** Modelled from the spec: the type names of end-to-end scenario 6
    ([metric_type_mismatch{"counter","ewma"}]), used to run the registry on
    concrete inputs. *)
Definition scenario_metric_type (k : metric_kind) : string :=
  match k with
  | KCounter _ => "counter"
  | KEwma _ => "ewma"
  end.

(* ------------------------------------------------------------------ *)
(** ** Registry: properties *)

Section RegistryFacts.

Variable metric_type : metric_kind -> string.

Lemma repo_emit e s : repo_ (emit e s) = repo_ s.
Proof. reflexivity. Qed.

Lemma store_emit e s : store_ (emit e s) = store_ s.
Proof. reflexivity. Qed.

(** [get] on a path whose container has another type name throws, and the
    only trace of the call is the lock and unlock of the registry. *)
Lemma get_mismatch k p c s :
  repo_ s !! p = Some c -> type_ c <> metric_type k ->
  get metric_type k p s =
    (inl (metric_type_mismatch (type_ c) (metric_type k)),
     emit RegistryUnlock (emit RegistryLock s)).
Proof.
  intros Hp Hne. unfold get, bind, get_or_add. rewrite repo_emit, Hp.
  apply String.eqb_neq in Hne. rewrite Hne. reflexivity.
Qed.

Lemma get_tagged_mismatch k p tags b c s :
  repo_ s !! p = Some c -> type_ c <> metric_type k ->
  get_tagged metric_type k p tags b s =
    (inl (metric_type_mismatch (type_ c) (metric_type k)),
     emit RegistryUnlock (emit RegistryLock s)).
Proof.
  intros Hp Hne. unfold get_tagged. unfold bind at 1.
  rewrite (get_mismatch k p c s Hp Hne). reflexivity.
Qed.

(** A request whose container exists with the right type and already holds
    an instrument at [tags] returns that instrument, invokes no builder
    and changes nothing but the trace. *)
Lemma get_tagged_existing k p tags b c r s :
  repo_ s !! p = Some c -> type_ c = metric_type k ->
  metrics_ c !! tags = Some r ->
  get_tagged metric_type k p tags b s =
    (inr r, emit (ContainerUnlock p) (emit (ContainerLock p)
              (emit RegistryUnlock (emit RegistryLock s)))).
Proof.
  intros Hp Ht Hr. unfold get_tagged, get, bind, get_or_add, ret.
  rewrite repo_emit, Hp, Ht, String.eqb_refl.
  unfold child. rewrite Hr. reflexivity.
Qed.

(** [extends s s']: every container of [s] is still in [s'], with the same
    type name and at least the same instruments. *)
Definition extends (s s' : registry) : Prop :=
  forall p c, repo_ s !! p = Some c ->
  exists c', repo_ s' !! p = Some c' /\ type_ c' = type_ c /\
             metrics_ c ⊆ metrics_ c'.

Lemma extends_refl s : extends s s.
Proof. intros p c H. exists c. repeat split; auto. Qed.

Lemma extends_trans s1 s2 s3 :
  extends s1 s2 -> extends s2 s3 -> extends s1 s3.
Proof.
  intros H12 H23 p c H1.
  destruct (H12 p c H1) as (c2 & H2 & Ht2 & Hs2).
  destruct (H23 p c2 H2) as (c3 & H3 & Ht3 & Hs3).
  exists c3. repeat split; auto. congruence. etrans; eauto.
Qed.

Lemma extends_same_repo s s' : repo_ s' = repo_ s -> extends s s'.
Proof. intros He p c H. exists c. rewrite He. repeat split; auto. Qed.

Lemma get_or_add_spec p b s :
  let '(r, s') := get_or_add p b s in
  extends s s' /\ store_ s' = store_ s /\ next_ s' = next_ s /\
  exists c, r = inr c /\ repo_ s' !! p = Some c /\
    (repo_ s !! p = None -> c = b) /\
    (forall c0, repo_ s !! p = Some c0 -> c = c0 /\ repo_ s' = repo_ s).
Proof.
  unfold get_or_add. rewrite repo_emit. destruct (repo_ s !! p) as [c0|] eqn:Hp.
  - split; [apply extends_same_repo; reflexivity|]. split; [reflexivity|]. split; [reflexivity|].
    exists c0. repeat split; auto; congruence.
  - split.
    + intros q c Hq. exists c. simpl.
      rewrite lookup_insert_ne by congruence. auto.
    + split; [reflexivity|]. split; [reflexivity|].
      exists b. simpl. rewrite lookup_insert_eq.
      repeat split; auto; intros; congruence.
Qed.

Lemma get_spec k p s :
  let '(r, s') := get metric_type k p s in
  extends s s' /\ store_ s' = store_ s /\ next_ s' = next_ s /\
  forall c, r = inr c -> repo_ s' !! p = Some c /\ type_ c = metric_type k.
Proof.
  unfold get, bind.
  pose proof (get_or_add_spec p (mkRegistered (metric_type k) ∅) s) as Hg.
  destruct (get_or_add p _ s) as [r1 s1].
  destruct Hg as (Hext & Hst & Hnx & c1 & -> & Hp1 & _ & _).
  destruct (String.eqb (type_ c1) (metric_type k)) eqn:He.
  - unfold ret. split; [exact Hext|]. split; [exact Hst|]. split; [exact Hnx|].
    intros c Hc. injection Hc as <-. split; [exact Hp1|].
    apply String.eqb_eq. exact He.
  - unfold throw. split; [exact Hext|]. split; [exact Hst|]. split; [exact Hnx|].
    intros c Hc. discriminate.
Qed.

Lemma child_spec p c tags b s :
  repo_ s !! p = Some c ->
  let '(r, s') := child p c tags b s in
  extends s s' /\
  forall l, r = inr l -> exists c', repo_ s' !! p = Some c' /\
    type_ c' = type_ c /\ metrics_ c' !! tags = Some l.
Proof.
  intros Hp. unfold child. destruct (metrics_ c !! tags) as [res|] eqn:Ht.
  - split; [apply extends_same_repo; reflexivity|]. intros l Hl. injection Hl as <-.
    exists c. split; [exact Hp|split; [reflexivity|exact Ht]].
  - destruct b as [e|m].
    + split; [apply extends_same_repo; reflexivity|]. intros l Hl. discriminate.
    + split.
      * intros q cq Hq. simpl. destruct (decide (q = p)) as [->|Hne].
        -- rewrite Hp in Hq. injection Hq as <-.
           eexists. split; [apply lookup_insert_eq|split; [reflexivity|]].
           simpl. apply insert_subseteq. exact Ht.
        -- exists cq. rewrite lookup_insert_ne by congruence.
           split; [exact Hq|split; reflexivity].
      * intros l Hl. injection Hl as <-. eexists. simpl.
        split; [apply lookup_insert_eq|split; [reflexivity|]].
        simpl. apply lookup_insert_eq.
Qed.

Lemma get_tagged_spec k p tags b s :
  let '(r, s') := get_tagged metric_type k p tags b s in
  extends s s' /\
  forall l, r = inr l -> exists c', repo_ s' !! p = Some c' /\
    type_ c' = metric_type k /\ metrics_ c' !! tags = Some l.
Proof.
  unfold get_tagged, bind. pose proof (get_spec k p s) as Hg.
  destruct (get metric_type k p s) as [[e|c] s1].
  - destruct Hg as (Hext & _ & _ & _). split; auto. intros l Hl. discriminate.
  - destruct Hg as (Hext & _ & _ & Hc). destruct (Hc c eq_refl) as [Hp Ht].
    pose proof (child_spec p c tags b s1 Hp) as Hch.
    destruct (child p c tags b s1) as [r s2].
    destruct Hch as [Hext2 Hl]. split; [eapply extends_trans; eauto|].
    intros l Hrl. destruct (Hl l Hrl) as (c' & ? & ? & ?).
    exists c'. repeat split; auto. congruence.
Qed.

Lemma run_request_extends rq s :
  extends s (snd (run_request metric_type rq s)).
Proof.
  destruct rq; simpl; unfold counter, ewma;
  match goal with |- context [get_tagged ?mt ?k ?p ?t ?b ?s] =>
    pose proof (get_tagged_spec k p t b s) as H;
    destruct (get_tagged mt k p t b s); apply H end.
Qed.

Lemma run_requests_extends rqs s :
  extends s (run_requests metric_type rqs s).
Proof.
  revert s. induction rqs as [|rq rqs IH]; intros s; simpl.
  - apply extends_same_repo; reflexivity.
  - eapply extends_trans; [apply run_request_extends | apply IH].
Qed.

Lemma child_inl p c tags b s e s' :
  child p c tags b s = (inl e, s') ->
  b = inl e /\ repo_ s' = repo_ s /\ store_ s' = store_ s /\ next_ s' = next_ s.
Proof.
  unfold child. destruct (metrics_ c !! tags); [intros H; discriminate|].
  destruct b as [e0|m]; intros H; [|discriminate].
  injection H as <- <-. repeat split.
Qed.

Lemma get_inl k p s e s' :
  get metric_type k p s = (inl e, s') ->
  exists c, repo_ s !! p = Some c /\ type_ c <> metric_type k /\
    e = metric_type_mismatch (type_ c) (metric_type k) /\
    repo_ s' = repo_ s /\ store_ s' = store_ s.
Proof.
  unfold get, bind, get_or_add. rewrite repo_emit.
  destruct (repo_ s !! p) as [c|] eqn:Hp; simpl.
  - destruct (String.eqb (type_ c) (metric_type k)) eqn:He; intros H;
      [discriminate|].
    injection H as <- <-. exists c. split; [reflexivity|].
    split; [apply String.eqb_neq; exact He|]. repeat split.
  - rewrite String.eqb_refl. discriminate.
Qed.

Lemma get_tagged_inl k p tags b s e s' :
  get_tagged metric_type k p tags b s = (inl e, s') ->
  (exists c, repo_ s !! p = Some c /\ type_ c <> metric_type k /\
     e = metric_type_mismatch (type_ c) (metric_type k) /\
     repo_ s' = repo_ s /\ store_ s' = store_ s) \/ b = inl e.
Proof.
  unfold get_tagged, bind.
  destruct (get metric_type k p s) as [[e1|c] s1] eqn:Hg; intros H.
  - injection H as <- <-. left. apply get_inl. exact Hg.
  - right. apply child_inl in H. tauto.
Qed.

(** Builder invocations for [(p, tags)] recorded in a trace, and those
    that returned an instrument. *)
Definition builder_invocations (p : metric_path) (tags : tag_collection)
    (tr : list event) : nat :=
  length (filter (fun e => e = Build p tags false \/ e = Build p tags true) tr).

Definition successful_builds (p : metric_path) (tags : tag_collection)
    (tr : list event) : nat :=
  length (filter (fun e => e = Build p tags true) tr).

Definition has_instrument (s : registry) (p : metric_path)
    (tags : tag_collection) : bool :=
  match repo_ s !! p with
  | Some c => bool_decide (is_Some (metrics_ c !! tags))
  | None => false
  end.

(** The builds invariant: one successful build for each instrument held,
    none for the others. *)
Definition builds_inv (s : registry) : Prop :=
  forall p tags, successful_builds p tags (trace_ s) =
                 if has_instrument s p tags then 1%nat else 0%nat.

Lemma successful_builds_app p tags l1 l2 :
  successful_builds p tags (l1 ++ l2) =
  (successful_builds p tags l1 + successful_builds p tags l2)%nat.
Proof. unfold successful_builds. rewrite filter_app, length_app. reflexivity. Qed.

Lemma successful_builds_single p tags e :
  successful_builds p tags [e] =
  if decide (e = Build p tags true) then 1%nat else 0%nat.
Proof.
  unfold successful_builds. rewrite filter_cons, filter_nil.
  destruct (decide _); reflexivity.
Qed.

Lemma builder_invocations_app p tags l1 l2 :
  builder_invocations p tags (l1 ++ l2) =
  (builder_invocations p tags l1 + builder_invocations p tags l2)%nat.
Proof. unfold builder_invocations. rewrite filter_app, length_app. reflexivity. Qed.

Lemma builder_invocations_single p tags e :
  builder_invocations p tags [e] =
  if decide (e = Build p tags false \/ e = Build p tags true) then 1%nat else 0%nat.
Proof.
  unfold builder_invocations. rewrite filter_cons, filter_nil.
  destruct (decide _); reflexivity.
Qed.

Lemma builds_inv_emit s e :
  (forall p tags, e <> Build p tags true) ->
  builds_inv s -> builds_inv (emit e s).
Proof.
  intros He Hi p tags. unfold emit. simpl.
  rewrite successful_builds_app, (Hi p tags), successful_builds_single.
  rewrite decide_False by apply He.
  unfold has_instrument. simpl. lia.
Qed.

Ltac no_build := intros ? ? ?; discriminate.

Lemma builds_inv_empty : builds_inv empty_registry.
Proof. intros p tags. reflexivity. Qed.

Lemma builds_inv_get k p s :
  builds_inv s -> builds_inv (snd (get metric_type k p s)).
Proof.
  intros Hi. unfold get, bind, get_or_add, ret, throw. simpl.
  destruct (repo_ s !! p) as [c|] eqn:Hp; simpl.
  - destruct (String.eqb (type_ c) (metric_type k)); simpl;
      repeat apply builds_inv_emit; try no_build; exact Hi.
  - rewrite String.eqb_refl. simpl. apply builds_inv_emit; [no_build|].
    intros q tags. simpl. rewrite successful_builds_app, (Hi q tags).
    rewrite successful_builds_single, decide_False by discriminate.
    unfold has_instrument. simpl.
    destruct (decide (q = p)) as [->|Hne].
    + rewrite lookup_insert_eq, Hp. simpl. rewrite lookup_empty.
      rewrite bool_decide_eq_false_2 by (intros [? ?]; discriminate). reflexivity.
    + rewrite lookup_insert_ne by congruence. lia.
Qed.

Lemma builds_inv_child p c tags b s :
  repo_ s !! p = Some c -> builds_inv s ->
  builds_inv (snd (child p c tags b s)).
Proof.
  intros Hp Hi. unfold child.
  destruct (metrics_ c !! tags) as [r|] eqn:Ht; simpl.
  - repeat apply builds_inv_emit; try no_build. exact Hi.
  - destruct b as [e|m]; simpl.
    + repeat apply builds_inv_emit; try no_build. exact Hi.
    + apply builds_inv_emit; [no_build|].
      intros q t'. simpl. rewrite !successful_builds_app, (Hi q t').
      rewrite !successful_builds_single.
      rewrite (decide_False (P := ContainerLock p = _)) by discriminate.
      unfold has_instrument. simpl.
      destruct (decide (q = p)) as [->|Hne].
      * rewrite lookup_insert_eq, Hp. simpl.
        destruct (decide (t' = tags)) as [->|Htne].
        -- rewrite lookup_insert_eq, Ht.
           rewrite bool_decide_eq_false_2 by (intros [? ?]; discriminate).
           rewrite decide_True by reflexivity.
           rewrite bool_decide_eq_true_2 by eauto. reflexivity.
        -- rewrite lookup_insert_ne by congruence.
           rewrite decide_False by congruence. simpl. lia.
      * rewrite lookup_insert_ne by congruence.
        rewrite decide_False by congruence. simpl. lia.
Qed.

Lemma builds_inv_get_tagged k p tags b s :
  builds_inv s -> builds_inv (snd (get_tagged metric_type k p tags b s)).
Proof.
  intros Hi. unfold get_tagged, bind.
  pose proof (get_spec k p s) as Hg. pose proof (builds_inv_get k p s Hi) as Hi1.
  destruct (get metric_type k p s) as [[e|c] s1]; simpl in *; [exact Hi1|].
  destruct Hg as (_ & _ & _ & Hc). destruct (Hc c eq_refl) as [Hp _].
  apply builds_inv_child; assumption.
Qed.

Lemma builds_inv_run_requests rqs s :
  builds_inv s -> builds_inv (run_requests metric_type rqs s).
Proof.
  revert s. induction rqs as [|rq rqs IH]; intros s Hi; simpl; [exact Hi|].
  apply IH. destruct rq; simpl; unfold counter, ewma;
    apply builds_inv_get_tagged; exact Hi.
Qed.

End RegistryFacts.

Section RegistryClaims.

Variable metric_type : metric_kind -> string.

(** C1: at a path whose container has a type name different from the
    requested kind, both [counter] and [ewma] (whatever the tags and the
    construction arguments) return the [metric_type_mismatch] exception
    carrying the existing type name and the desired one. *)
Theorem registry_type_mismatch_thrown (s : registry) (p : metric_path)
    (c : registered_metric) (Hp : repo_ s !! p = Some c) :
  (forall t i tags, type_ c <> metric_type (KCounter t) ->
     fst (counter metric_type t p i tags s) =
       inl (metric_type_mismatch (type_ c) (metric_type (KCounter t)))) /\
  (forall t w iv tags, type_ c <> metric_type (KEwma t) ->
     fst (ewma metric_type t p w iv tags s) =
       inl (metric_type_mismatch (type_ c) (metric_type (KEwma t)))).
Proof.
  split.
  - intros t i tags Hne. unfold counter.
    rewrite (get_tagged_mismatch metric_type _ p tags _ c s Hp Hne). reflexivity.
  - intros t w iv tags Hne. unfold ewma.
    rewrite (get_tagged_mismatch metric_type _ p tags _ c s Hp Hne). reflexivity.
Qed.

(** C3: once [counter(p, i, tags)] has returned the instrument [r], after
    any further registry requests a call [counter(p, i', tags)] returns the
    same instrument [r]; it leaves the containers and the instrument store
    as they were, so [i'] is ignored. *)
Theorem counter_identity_preserved (s s1 : registry) (t : string)
    (p : metric_path) (tags : tag_collection) (i : Z) (r : loc)
    (Hr : counter metric_type t p i tags s = (inr r, s1)) :
  forall (rqs : list request) (i' : Z),
  let s2 := run_requests metric_type rqs s1 in
  fst (counter metric_type t p i' tags s2) = inr r /\
  repo_ (snd (counter metric_type t p i' tags s2)) = repo_ s2 /\
  store_ (snd (counter metric_type t p i' tags s2)) = store_ s2.
Proof.
  intros rqs i' s2.
  pose proof (get_tagged_spec metric_type (KCounter t) p tags
                (inr (MCounter i)) s) as Hg.
  unfold counter in Hr. rewrite Hr in Hg. destruct Hg as [_ Hg].
  destruct (Hg r eq_refl) as (c1 & Hp1 & Ht1 & Hl1).
  destruct (run_requests_extends metric_type rqs s1 p c1 Hp1)
    as (c2 & Hp2 & Ht2 & Hsub).
  assert (Hl2 : metrics_ c2 !! tags = Some r)
    by (eapply lookup_weaken; eauto).
  unfold counter.
  rewrite (get_tagged_existing metric_type (KCounter t) p tags
             (inr (MCounter i')) c2 r s2 Hp2 ltac:(congruence) Hl2).
  repeat split.
Qed.

(** C10: whenever a [counter] or [ewma] request returns
    [metric_type_mismatch], the path held a container of that existing type
    name, and the call changed neither the path-to-container map nor the
    instrument store. *)
Theorem mismatch_leaves_registry_unchanged (s : registry) (rq : request)
    (existing desired : string)
    (He : fst (run_request metric_type rq s) =
            inl (metric_type_mismatch existing desired)) :
  repo_ (snd (run_request metric_type rq s)) = repo_ s /\
  store_ (snd (run_request metric_type rq s)) = store_ s /\
  exists p c, repo_ s !! p = Some c /\ type_ c = existing /\
              existing <> desired.
Proof.
  destruct rq as [t p i tags | t p w iv tags]; simpl in *; unfold counter, ewma in *.
  - destruct (get_tagged metric_type (KCounter t) p tags (inr (MCounter i)) s)
      as [r s'] eqn:Hg. simpl in He. subst r.
    apply get_tagged_inl in Hg.
    destruct Hg as [(c & Hp & Hne & Hm & Hrepo & Hstore) | Hb]; [|discriminate].
    injection Hm as -> ->. simpl. split; [exact Hrepo|]. split; [exact Hstore|].
    exists p, c. repeat split; auto.
  - destruct (get_tagged metric_type (KEwma t) p tags (ewma_new w iv) s)
      as [r s'] eqn:Hg. simpl in He. subst r.
    apply get_tagged_inl in Hg.
    destruct Hg as [(c & Hp & Hne & Hm & Hrepo & Hstore) | Hb].
    + injection Hm as -> ->. simpl. split; [exact Hrepo|]. split; [exact Hstore|].
      exists p, c. repeat split; auto.
    + unfold ewma_new in Hb.
      destruct ((w <=? 0) || (iv <=? 0) || (w <? iv)); discriminate.
Qed.

(** C7: a [child] (find_or_create) call that fails leaves the
    path-to-container map, hence the tag map of every container, and the
    instrument store exactly as they were. *)
Theorem find_or_create_failure_atomic (p : metric_path)
    (c : registered_metric) (tags : tag_collection) (b : error + metric)
    (s s' : registry) (e : error)
    (Hfail : child p c tags b s = (inl e, s')) :
  repo_ s' = repo_ s /\ store_ s' = store_ s /\ next_ s' = next_ s.
Proof.
  apply child_inl in Hfail. destruct Hfail as (_ & ? & ? & ?). auto.
Qed.

(** C8 (amended): the EWMA constructor raises [invalid_parameter] exactly
    when window <= 0, interval <= 0 or interval > window; an [ewma] request
    with such parameters raises it when it constructs a new EWMA (no
    container at the path, or an EWMA container without that tag set); a
    request for an EWMA that already exists returns it, whatever the
    parameters. *)
Theorem ewma_invalid_parameter_on_construction :
  (forall w iv : Z,
     ewma_new w iv = inl invalid_parameter <-> (w <= 0 \/ iv <= 0 \/ iv > w)) /\
  (forall t p w iv tags s,
     (w <= 0 \/ iv <= 0 \/ iv > w) ->
     (repo_ s !! p = None \/
      exists c, repo_ s !! p = Some c /\ type_ c = metric_type (KEwma t) /\
                metrics_ c !! tags = None) ->
     fst (ewma metric_type t p w iv tags s) = inl invalid_parameter) /\
  (forall t p w iv tags s c r,
     repo_ s !! p = Some c -> type_ c = metric_type (KEwma t) ->
     metrics_ c !! tags = Some r ->
     fst (ewma metric_type t p w iv tags s) = inr r).
Proof.
  assert (Hnew : forall w iv : Z,
     ewma_new w iv = inl invalid_parameter <-> (w <= 0 \/ iv <= 0 \/ iv > w)).
  { intros w iv. unfold ewma_new.
    destruct (w <=? 0) eqn:H1; destruct (iv <=? 0) eqn:H2;
      destruct (w <? iv) eqn:H3; simpl;
      rewrite ?Z.leb_le, ?Z.leb_gt, ?Z.ltb_lt, ?Z.ltb_ge in *;
      split; intros H; try discriminate; try reflexivity; lia. }
  split; [exact Hnew|]. split.
  - intros t p w iv tags s Hbad Hcase. apply Hnew in Hbad.
    unfold ewma, get_tagged, get, get_or_add, child, ret, bind.
    simpl. destruct Hcase as [Hp | (c & Hp & Ht & Htags)].
    + rewrite Hp. simpl. rewrite String.eqb_refl. simpl.
      rewrite lookup_empty, Hbad. reflexivity.
    + rewrite Hp. simpl. rewrite Ht, String.eqb_refl. simpl.
      rewrite Htags, Hbad. reflexivity.
  - intros t p w iv tags s c r Hp Ht Hr. unfold ewma.
    rewrite (get_tagged_existing metric_type _ p tags _ c r s Hp Ht Hr).
    reflexivity.
Qed.

(** C9 (amended): [visit_registered_metrics] calls the handler exactly once
    for every registered path (each path once, every registered path), and
    every call happens between the acquisition and the release of the
    registry lock. *)
Theorem visit_registered_metrics_under_lock (s : registry) :
  let paths := (map_to_list (repo_ s)).*1 in
  trace_ (visit_registered_metrics s) =
    trace_ s ++ [RegistryLock] ++ map Handler paths ++ [RegistryUnlock] /\
  NoDup paths /\
  (forall p, p ∈ paths <-> is_Some (repo_ s !! p)) /\
  repo_ (visit_registered_metrics s) = repo_ s.
Proof.
  intros paths.
  assert (Hfold : forall (l : list (metric_path * registered_metric)) acc,
    fold_left (fun acc pr => emit (Handler pr.1) acc) l acc =
      mkRegistry (repo_ acc) (store_ acc) (next_ acc)
        (trace_ acc ++ map (fun pr => Handler pr.1) l)).
  { induction l as [|pr l IH]; intros acc; simpl.
    - destruct acc; simpl. rewrite app_nil_r. reflexivity.
    - rewrite IH. simpl. rewrite <- app_assoc. reflexivity. }
  unfold visit_registered_metrics, visit. rewrite Hfold. simpl.
  split; [|split; [|split]].
  - rewrite <- !app_assoc. simpl. f_equal. f_equal.
    unfold paths. rewrite <- list_fmap_compose. reflexivity.
  - apply NoDup_fst_map_to_list.
  - intros p. unfold paths. rewrite list_elem_of_fmap. split.
    + intros ([q c] & -> & Hin). apply elem_of_map_to_list in Hin.
      simpl. rewrite Hin. eauto.
    + intros [c Hc]. exists (p, c). split; [reflexivity|].
      apply elem_of_map_to_list. exact Hc.
  - reflexivity.
Qed.

(** C6 (amended): [child] (find_or_create) returns the instrument already
    held at the tag set without invoking the builder; otherwise it invokes
    the builder exactly once and, when the builder returns, inserts the new
    instrument and returns it. A builder that raises inserts nothing (the
    containers, the store and the next address are unchanged, and the
    exception is returned), so a later call for the same tag set, directly
    on the container or through a registry request, invokes its builder
    again. Across any sequence of registry requests, at most one builder
    invocation per (container, tag set) succeeds. *)
Theorem find_or_create_builds_once :
  (forall p c tags b s r, metrics_ c !! tags = Some r ->
     child p c tags b s =
       (inr r, emit (ContainerUnlock p) (emit (ContainerLock p) s))) /\
  (forall p c tags b s, metrics_ c !! tags = None ->
     builder_invocations p tags (trace_ (snd (child p c tags b s))) =
       S (builder_invocations p tags (trace_ s)) /\
     (forall m, b = inr m ->
        fst (child p c tags b s) = inr (next_ s) /\
        repo_ (snd (child p c tags b s)) !! p =
          Some (mkRegistered (type_ c) (<[tags := next_ s]> (metrics_ c))) /\
        store_ (snd (child p c tags b s)) !! next_ s = Some m) /\
     (forall e, b = inl e ->
        let s' := snd (child p c tags b s) in
        fst (child p c tags b s) = inl e /\
        repo_ s' = repo_ s /\ store_ s' = store_ s /\ next_ s' = next_ s /\
        (forall b', builder_invocations p tags (trace_ (snd (child p c tags b' s'))) =
                      S (builder_invocations p tags (trace_ s'))) /\
        (forall k b', repo_ s !! p = Some c -> type_ c = metric_type k ->
           builder_invocations p tags
             (trace_ (snd (get_tagged metric_type k p tags b' s'))) =
           S (builder_invocations p tags (trace_ s'))))) /\
  (forall rqs p tags,
     (successful_builds p tags
        (trace_ (run_requests metric_type rqs empty_registry)) <= 1)%nat).
Proof.
  assert (Hinc : forall p c tags b s, metrics_ c !! tags = None ->
     builder_invocations p tags (trace_ (snd (child p c tags b s))) =
       S (builder_invocations p tags (trace_ s))).
  { intros p c tags b s Ht. unfold child. rewrite Ht.
    destruct b as [e|m]; simpl; rewrite !builder_invocations_app,
      !builder_invocations_single;
      rewrite (decide_False (P := ContainerLock p = _ \/ _))
        by (intros [?|?]; discriminate);
      rewrite (decide_False (P := ContainerUnlock p = _ \/ _))
        by (intros [?|?]; discriminate);
      rewrite decide_True by auto; lia. }
  split; [|split].
  - intros p c tags b s r Hr. unfold child. rewrite Hr. reflexivity.
  - intros p c tags b s Ht. split; [apply Hinc; exact Ht|]. split.
    + intros m ->. unfold child. rewrite Ht. simpl. split; [reflexivity|]. split.
      * apply lookup_insert_eq.
      * apply lookup_insert_eq.
    + intros e -> s'.
      assert (Hs' : s' = emit (ContainerUnlock p)
                           (emit (Build p tags false) (emit (ContainerLock p) s)))
        by (unfold s', child; rewrite Ht; reflexivity).
      split; [unfold child; rewrite Ht; reflexivity|].
      rewrite Hs'. split; [reflexivity|]. split; [reflexivity|].
      split; [reflexivity|]. split.
      * intros b'. apply Hinc. exact Ht.
      * intros k b' Hp Htype. unfold get_tagged, get, bind, get_or_add, ret.
        simpl. rewrite Hp. simpl. rewrite Htype, String.eqb_refl. simpl.
        rewrite (Hinc p c tags b' _ Ht). simpl.
        rewrite !builder_invocations_app, !builder_invocations_single.
        rewrite (decide_False (P := RegistryLock = _ \/ _))
          by (intros [?|?]; discriminate).
        rewrite (decide_False (P := RegistryUnlock = _ \/ _))
          by (intros [?|?]; discriminate).
        lia.
  - intros rqs p tags.
    pose proof (builds_inv_run_requests metric_type rqs empty_registry
                  builds_inv_empty p tags) as H.
    rewrite H. destruct (has_instrument _ p tags); lia.
Qed.

End RegistryClaims.

(* ------------------------------------------------------------------ *)
(** ** Registry: further properties *)

Section RegistryMore.

Variable metric_type : metric_kind -> string.

(** The instrument held at [(p, tags)], by address. *)
Definition instrument_at (s : registry) (p : metric_path)
    (tags : tag_collection) : option loc :=
  match repo_ s !! p with
  | Some c => metrics_ c !! tags
  | None => None
  end.

(** The address invariant: every stored instrument lies below the next free
    address, every instrument held by a container is stored, and no two
    (path, tag set) pairs share an instrument. *)
Definition addresses_inv (s : registry) : Prop :=
  (forall l, is_Some (store_ s !! l) -> (l < next_ s)%N) /\
  (forall p tags l, instrument_at s p tags = Some l -> is_Some (store_ s !! l)) /\
  (forall p1 t1 p2 t2 l, instrument_at s p1 t1 = Some l ->
     instrument_at s p2 t2 = Some l -> p1 = p2 /\ t1 = t2).

Lemma run_request_get_tagged rq :
  run_request metric_type rq =
    get_tagged metric_type (request_kind rq) (request_path rq)
      (request_tags rq) (request_builder rq).
Proof. destruct rq; reflexivity. Qed.

Lemma trace_emit e s : trace_ (emit e s) = trace_ s ++ [e].
Proof. reflexivity. Qed.

Lemma next_emit e s : next_ (emit e s) = next_ s.
Proof. reflexivity. Qed.

Lemma instrument_at_emit e s p tags :
  instrument_at (emit e s) p tags = instrument_at s p tags.
Proof. reflexivity. Qed.

(** [get] leaves every instrument where it was (it may only add an empty
    container) and its only trace is the lock and unlock of the registry. *)
Lemma get_effects k p s :
  trace_ (snd (get metric_type k p s)) = trace_ s ++ [RegistryLock; RegistryUnlock] /\
  store_ (snd (get metric_type k p s)) = store_ s /\
  next_ (snd (get metric_type k p s)) = next_ s /\
  (forall q t, instrument_at (snd (get metric_type k p s)) q t = instrument_at s q t).
Proof.
  unfold get, bind, get_or_add, ret, throw. rewrite repo_emit.
  destruct (repo_ s !! p) as [c|] eqn:Hp; simpl.
  - destruct (String.eqb (type_ c) (metric_type k)); simpl;
      (split; [rewrite <- app_assoc; reflexivity|]); repeat split.
  - rewrite String.eqb_refl. simpl.
    split; [rewrite <- app_assoc; reflexivity|]. split; [reflexivity|].
    split; [reflexivity|]. intros q t. unfold instrument_at. simpl.
    destruct (decide (q = p)) as [->|Hne].
    + rewrite lookup_insert_eq, Hp. simpl. apply lookup_empty.
    + rewrite lookup_insert_ne by congruence. reflexivity.
Qed.

(** The instruments after [child] inserted [next] at [(p, tags)]. *)
Lemma instrument_at_insert s s' p c tags n q t :
  repo_ s !! p = Some c ->
  repo_ s' = <[p := mkRegistered (type_ c) (<[tags := n]> (metrics_ c))]> (repo_ s) ->
  instrument_at s' q t =
    if decide (q = p /\ t = tags) then Some n else instrument_at s q t.
Proof.
  intros Hp Hs'. unfold instrument_at. rewrite Hs'.
  destruct (decide (q = p)) as [->|Hne].
  - rewrite lookup_insert_eq, Hp. simpl.
    destruct (decide (t = tags)) as [->|Htne].
    + rewrite decide_True by auto. apply lookup_insert_eq.
    + rewrite decide_False by tauto. apply lookup_insert_ne. congruence.
  - rewrite decide_False by tauto. rewrite lookup_insert_ne by congruence.
    reflexivity.
Qed.

Lemma addresses_inv_same s s' :
  store_ s' = store_ s -> next_ s' = next_ s ->
  (forall q t, instrument_at s' q t = instrument_at s q t) ->
  addresses_inv s -> addresses_inv s'.
Proof.
  intros Hst Hnx Hi (H1 & H2 & H3). unfold addresses_inv. rewrite Hst, Hnx.
  split; [exact H1|]. split.
  - intros q t l. rewrite Hi. apply H2.
  - intros p1 t1 p2 t2 l. rewrite !Hi. apply H3.
Qed.

(** One request keeps the invariant and only adds to the store. *)
Lemma addresses_inv_request rq s :
  addresses_inv s ->
  addresses_inv (snd (run_request metric_type rq s)) /\
  store_ s ⊆ store_ (snd (run_request metric_type rq s)).
Proof.
  intros Hinv. rewrite run_request_get_tagged.
  set (k := request_kind rq). set (p := request_path rq).
  set (tags := request_tags rq). set (b := request_builder rq).
  unfold get_tagged, bind.
  pose proof (get_effects k p s) as (_ & Hst & Hnx & Hi).
  pose proof (get_spec metric_type k p s) as Hg.
  destruct (get metric_type k p s) as [[e|c] s1]; simpl in *.
  - split; [eapply addresses_inv_same; eauto|]. rewrite Hst. reflexivity.
  - destruct Hg as (_ & _ & _ & Hc). destruct (Hc c eq_refl) as [Hp _].
    assert (Hinv1 : addresses_inv s1) by (eapply addresses_inv_same; eauto).
    clear Hinv. rewrite <- Hst. clear Hi Hst Hnx.
    unfold child. destruct (metrics_ c !! tags) as [r|] eqn:Ht; simpl.
    + split; [|reflexivity]. eapply addresses_inv_same; [| | |exact Hinv1]; reflexivity.
    + destruct b as [e|m]; simpl.
      * split; [|reflexivity]. eapply addresses_inv_same; [| | |exact Hinv1]; reflexivity.
      * destruct Hinv1 as (H1 & H2 & H3).
        assert (Hfresh : store_ s1 !! next_ s1 = None).
        { destruct (store_ s1 !! next_ s1) as [m0|] eqn:Hn; [|reflexivity].
          exfalso. assert (Hs : is_Some (store_ s1 !! next_ s1)) by eauto.
          specialize (H1 _ Hs). lia. }
        assert (Hat : forall s', repo_ s' = <[p := mkRegistered (type_ c)
                                   (<[tags := next_ s1]> (metrics_ c))]> (repo_ s1) ->
                   forall q t, instrument_at s' q t =
                   if decide (q = p /\ t = tags) then Some (next_ s1)
                   else instrument_at s1 q t).
        { intros s' Hs' q t. eapply instrument_at_insert; eauto. }
        split; [|apply insert_subseteq; exact Hfresh].
        unfold addresses_inv. rewrite store_emit, next_emit. simpl.
        split; [|split].
        -- intros l Hl. destruct (decide (l = next_ s1)) as [->|Hne]; [lia|].
           rewrite lookup_insert_ne in Hl by congruence. specialize (H1 l Hl). lia.
        -- intros q t l. erewrite Hat by reflexivity.
           destruct (decide (q = p /\ t = tags)) as [_|_].
           ++ intros Hl. injection Hl as <-. rewrite lookup_insert_eq. eauto.
           ++ intros Hl. specialize (H2 q t l Hl).
              assert (l <> next_ s1) by (intros ->; rewrite Hfresh in H2;
                                            destruct H2; discriminate).
              rewrite lookup_insert_ne by congruence. exact H2.
        -- intros p1 t1 p2 t2 l.
           match goal with |- instrument_at ?S _ _ = _ -> _ =>
             rewrite (Hat S eq_refl p1 t1), (Hat S eq_refl p2 t2) end.
           assert (Hold : forall q t, instrument_at s1 q t = Some l -> l <> next_ s1).
           { intros q t Hl ->. specialize (H2 q t _ Hl). rewrite Hfresh in H2.
             destruct H2; discriminate. }
           destruct (decide (p1 = p /\ t1 = tags)) as [[-> ->]|Hn1];
             destruct (decide (p2 = p /\ t2 = tags)) as [[-> ->]|Hn2];
             intros E1 E2.
           ++ auto.
           ++ injection E1 as <-. exfalso. exact (Hold _ _ E2 eq_refl).
           ++ injection E2 as <-. exfalso. exact (Hold _ _ E1 eq_refl).
           ++ exact (H3 _ _ _ _ _ E1 E2).
Qed.

Lemma addresses_inv_run_requests rqs s :
  addresses_inv s ->
  addresses_inv (run_requests metric_type rqs s) /\
  store_ s ⊆ store_ (run_requests metric_type rqs s).
Proof.
  revert s. induction rqs as [|rq rqs IH]; intros s Hinv; simpl.
  - split; [exact Hinv|reflexivity].
  - destruct (addresses_inv_request rq s Hinv) as [Hinv1 Hsub1].
    destruct (IH _ Hinv1) as [Hinv2 Hsub2]. split; [exact Hinv2|].
    etrans; eauto.
Qed.

Lemma addresses_inv_empty : addresses_inv empty_registry.
Proof.
  split; [|split].
  - intros l [m Hm]. simpl in Hm. rewrite lookup_empty in Hm. discriminate.
  - intros p tags l Hl. unfold instrument_at in Hl. simpl in Hl.
    rewrite lookup_empty in Hl. discriminate.
  - intros p1 t1 p2 t2 l Hl. unfold instrument_at in Hl. simpl in Hl.
    rewrite lookup_empty in Hl. discriminate.
Qed.

End RegistryMore.

Section RegistryExtras.

Variable metric_type : metric_kind -> string.

(** X1: [get_or_add] returns the container already registered at [name],
    or registers the one its builder made; a second call for the same name
    returns that same container, changes nothing and ignores its builder. *)
Theorem get_or_add_keeps_existing (p : metric_path) (b b' : registered_metric)
    (s : registry) :
  let '(r1, s1) := get_or_add p b s in
  r1 = inr (default b (repo_ s !! p)) /\
  repo_ s1 = <[p := default b (repo_ s !! p)]> (repo_ s) /\
  get_or_add p b' s1 = (r1, emit RegistryUnlock (emit RegistryLock s1)).
Proof.
  unfold get_or_add. rewrite repo_emit.
  destruct (repo_ s !! p) as [c|] eqn:Hp; simpl.
  - split; [reflexivity|]. split; [symmetry; apply insert_id; exact Hp|].
    rewrite Hp. reflexivity.
  - split; [reflexivity|]. split; [reflexivity|].
    rewrite lookup_insert_eq. reflexivity.
Qed.

(** X2: [get<T>(path)] takes and releases the registry lock once and checks
    the type name after releasing it. It returns only a container of the
    requested type name, registered at the path; on a free path it
    registers an empty container of that type; on a container of another
    type it throws [metric_type_mismatch] and changes no container. *)
Theorem get_checks_type_after_unlock (k : metric_kind) (p : metric_path)
    (s : registry) :
  trace_ (snd (get metric_type k p s)) =
    trace_ s ++ [RegistryLock; RegistryUnlock] /\
  match fst (get metric_type k p s) with
  | inr c => type_ c = metric_type k /\
             repo_ (snd (get metric_type k p s)) !! p = Some c
  | inl e => exists c, repo_ s !! p = Some c /\ type_ c <> metric_type k /\
             e = metric_type_mismatch (type_ c) (metric_type k) /\
             repo_ (snd (get metric_type k p s)) = repo_ s
  end /\
  (repo_ s !! p = None ->
     fst (get metric_type k p s) = inr (mkRegistered (metric_type k) ∅)).
Proof.
  pose proof (get_effects metric_type k p s) as (Htr & _).
  split; [exact Htr|]. split.
  - pose proof (get_spec metric_type k p s) as Hg.
    destruct (get metric_type k p s) as [[e|c] s1] eqn:Hge; simpl.
    + apply get_inl in Hge as (c & Hp & Hne & -> & Hrepo & _).
      exists c. auto.
    + destruct Hg as (_ & _ & _ & Hc). destruct (Hc c eq_refl). auto.
  - intros Hp. unfold get, bind, get_or_add, ret. rewrite repo_emit, Hp.
    simpl. rewrite String.eqb_refl. reflexivity.
Qed.

(** X3: a [counter] or [ewma] request ([get] then [tagged]/[child]) first
    takes and releases the registry lock; unless it then throws
    [metric_type_mismatch], it takes the container lock, invokes the
    builder at most once, and releases the container lock, also when the
    builder throws. The two locks are never held together. *)
Theorem request_lock_discipline (k : metric_kind) (p : metric_path)
    (tags : tag_collection) (b : error + metric) (s : registry) :
  let '(r, s') := get_tagged metric_type k p tags b s in
  (exists existing, r = inl (metric_type_mismatch existing (metric_type k)) /\
     trace_ s' = trace_ s ++ [RegistryLock; RegistryUnlock]) \/
  (exists l, r = inr l /\
     trace_ s' = trace_ s ++ [RegistryLock; RegistryUnlock;
                              ContainerLock p; ContainerUnlock p]) \/
  (exists e, b = inl e /\ r = inl e /\
     trace_ s' = trace_ s ++ [RegistryLock; RegistryUnlock; ContainerLock p;
                              Build p tags false; ContainerUnlock p]) \/
  (exists m, b = inr m /\ r = inr (next_ s) /\
     trace_ s' = trace_ s ++ [RegistryLock; RegistryUnlock; ContainerLock p;
                              Build p tags true; ContainerUnlock p]).
Proof.
  unfold get_tagged, bind.
  pose proof (get_effects metric_type k p s) as (Htr & _ & Hnx & _).
  destruct (get metric_type k p s) as [[e|c] s1] eqn:Hge; simpl in *.
  - left. apply get_inl in Hge as (c & _ & _ & -> & _).
    exists (type_ c). split; [reflexivity|exact Htr].
  - unfold child. destruct (metrics_ c !! tags) as [l|] eqn:Ht.
    + simpl. right. left. exists l. split; [reflexivity|].
      rewrite Htr. rewrite <- !app_assoc. reflexivity.
    + destruct b as [e|m]; simpl; right; right.
      * left. exists e. split; [reflexivity|]. split; [reflexivity|].
        rewrite Htr. rewrite <- !app_assoc. reflexivity.
      * right. exists m. split; [reflexivity|]. split; [rewrite Hnx; reflexivity|].
        rewrite Htr. rewrite <- !app_assoc. reflexivity.
Qed.

(** X4: in a registry built by any sequence of [counter] and [ewma]
    requests, two different (path, tag set) pairs never hold the same
    instrument, and every instrument a container holds is a live object of
    the store. *)
Theorem registry_instruments_distinct (rqs : list request) :
  let s := run_requests metric_type rqs empty_registry in
  (forall p1 t1 p2 t2 l, instrument_at s p1 t1 = Some l ->
     instrument_at s p2 t2 = Some l -> p1 = p2 /\ t1 = t2) /\
  (forall p t l, instrument_at s p t = Some l -> is_Some (store_ s !! l)).
Proof.
  intros s.
  destruct (addresses_inv_run_requests metric_type rqs empty_registry
              addresses_inv_empty) as [(_ & H2 & H3) _].
  split; [exact H3|exact H2].
Qed.

(** X5: later requests never remove or replace an instrument: every
    (path, tag set) keeps the instrument it held, and every stored
    instrument keeps its value (a counter keeps the initial value it was
    created with). *)
Theorem instruments_never_replaced (rqs1 rqs2 : list request) :
  let s1 := run_requests metric_type rqs1 empty_registry in
  let s2 := run_requests metric_type (rqs1 ++ rqs2) empty_registry in
  store_ s1 ⊆ store_ s2 /\
  (forall p t l, instrument_at s1 p t = Some l -> instrument_at s2 p t = Some l).
Proof.
  intros s1 s2.
  assert (Hs2 : s2 = run_requests metric_type rqs2 s1)
    by (unfold s2, s1, run_requests; apply fold_left_app).
  rewrite Hs2. split.
  - destruct (addresses_inv_run_requests metric_type rqs1 empty_registry
                addresses_inv_empty) as [Hinv _].
    apply (addresses_inv_run_requests metric_type rqs2 s1 Hinv).
  - intros p t l. unfold instrument_at.
    destruct (repo_ s1 !! p) as [c|] eqn:Hp; [|discriminate]. intros Hl.
    destruct (run_requests_extends metric_type rqs2 s1 p c Hp)
      as (c' & Hp' & _ & Hsub).
    rewrite Hp'. eapply lookup_weaken; eauto.
Qed.

(** X6: the first request that returns an instrument at a path fixes the
    type name of that path: after any further requests, a request at the
    same path for another type name throws [metric_type_mismatch] with the
    first type name as the existing one. *)
Theorem path_type_fixed (rq : request) (s : registry) (l : loc)
    (rqs : list request) (rq' : request)
    (Hok : fst (run_request metric_type rq s) = inr l)
    (Hpath : request_path rq' = request_path rq)
    (Hne : metric_type (request_kind rq') <> metric_type (request_kind rq)) :
  fst (run_request metric_type rq'
         (run_requests metric_type rqs (snd (run_request metric_type rq s)))) =
    inl (metric_type_mismatch (metric_type (request_kind rq))
                              (metric_type (request_kind rq'))).
Proof.
  rewrite (run_request_get_tagged metric_type rq) in Hok |- *.
  pose proof (get_tagged_spec metric_type (request_kind rq) (request_path rq)
                (request_tags rq) (request_builder rq) s) as Hg.
  destruct (get_tagged metric_type (request_kind rq) (request_path rq)
              (request_tags rq) (request_builder rq) s) as [r s1].
  simpl in Hok |- *. subst r. destruct Hg as [_ Hg].
  destruct (Hg l eq_refl) as (c & Hp & Ht & _).
  destruct (run_requests_extends metric_type rqs s1 _ c Hp)
    as (c2 & Hp2 & Ht2 & _).
  rewrite (run_request_get_tagged metric_type rq'), Hpath.
  rewrite (get_tagged_mismatch metric_type (request_kind rq') _ _ _ c2 _ Hp2)
    by congruence.
  simpl. rewrite Ht2, Ht. reflexivity.
Qed.

(** X7: the overload [counter(name, tags)] without an initial value, at a
    tag set that holds no instrument and on a path that is free or holds a
    counter container, creates a new counter holding 0 at the next
    address, registers it at [(name, tags)] and returns it. *)
Theorem counter_default_fresh (t : string) (name : metric_path)
    (tags : tag_collection) (s : registry)
    (Hfree : instrument_at s name tags = None)
    (Htype : forall c, repo_ s !! name = Some c -> type_ c = metric_type (KCounter t)) :
  fst (counter_default metric_type t name tags s) = inr (next_ s) /\
  store_ (snd (counter_default metric_type t name tags s)) !! next_ s =
    Some (MCounter 0) /\
  instrument_at (snd (counter_default metric_type t name tags s)) name tags =
    Some (next_ s).
Proof.
  unfold counter_default, counter, get_tagged, get, bind, get_or_add, ret.
  unfold instrument_at in Hfree |- *. rewrite repo_emit.
  destruct (repo_ s !! name) as [c|] eqn:Hp; simpl.
  - rewrite (Htype c eq_refl), String.eqb_refl. simpl.
    unfold child. rewrite Hfree. simpl.
    split; [reflexivity|]. split; [apply lookup_insert_eq|].
    rewrite lookup_insert_eq. simpl. apply lookup_insert_eq.
  - rewrite String.eqb_refl. simpl. unfold child. simpl.
    rewrite lookup_empty. simpl.
    split; [reflexivity|]. split; [apply lookup_insert_eq|].
    rewrite lookup_insert_eq. simpl. apply lookup_insert_eq.
Qed.

End RegistryExtras.

(** ** Registry: concrete runs *)

Open Scope string_scope.

(** End-to-end scenario 6: [counter("a.b", 1)]. *)
Definition scenario6_counter : registry :=
  run_requests scenario_metric_type
    [RCounter "int64_t" ["a"; "b"] 1 []] empty_registry.

Lemma scenario6_counter_repo :
  repo_ scenario6_counter !! ["a"; "b"] =
    Some (mkRegistered "counter" {[ [] := 0%N ]}).
Proof. vm_compute. reflexivity. Qed.

(** Then [ewma("a.b", 10s, 1s)] raises [metric_type_mismatch{"counter","ewma"}]. *)
Lemma registry_type_mismatch_witness :
  fst (ewma scenario_metric_type "double" ["a"; "b"] 10 1 [] scenario6_counter) =
    inl (metric_type_mismatch "counter" "ewma").
Proof.
  apply (proj2 (registry_type_mismatch_thrown scenario_metric_type
                  scenario6_counter ["a"; "b"] _ scenario6_counter_repo)).
  discriminate.
Defined.

Lemma counter_identity_preserved_witness :
  fst (counter scenario_metric_type "int64_t" ["a"; "b"] 42 []
         (run_requests scenario_metric_type
            [RCounter "int64_t" ["a"; "c"] 7 [("host", "x")];
             REwma "double" ["a"; "b"] 10 1 []] scenario6_counter)) = inr 0%N.
Proof.
  refine (proj1 (counter_identity_preserved scenario_metric_type
           empty_registry scenario6_counter "int64_t" ["a"; "b"] [] 1 0%N
           _ _ 42)).
  vm_compute. reflexivity.
Defined.

Lemma mismatch_leaves_registry_unchanged_witness :
  repo_ (snd (run_request scenario_metric_type
                (REwma "double" ["a"; "b"] 10 1 []) scenario6_counter)) =
    repo_ scenario6_counter.
Proof.
  refine (proj1 (mismatch_leaves_registry_unchanged scenario_metric_type
           scenario6_counter (REwma "double" ["a"; "b"] 10 1 [])
           "counter" "ewma" _)).
  vm_compute. reflexivity.
Defined.

(** A registry holding one empty EWMA container at ["a"]. *)
Definition ewma_container : registered_metric := mkRegistered "ewma" ∅.

Definition one_ewma_path : registry :=
  mkRegistry {[ ["a"] := ewma_container ]} ∅ 0%N [].

(** Two find_or_create calls for the same tag set on that container: the
    first builder raises, the second returns an instrument. Both builders
    are invoked. *)
Lemma find_or_create_builder_invoked_twice :
  let s1 := snd (child ["a"] ewma_container [] (inl invalid_parameter)
                   one_ewma_path) in
  let s2 := snd (child ["a"] ewma_container [] (inr (MEwma 10 1)) s1) in
  builder_invocations ["a"] [] (trace_ s2) = 2%nat.
Proof. vm_compute. reflexivity. Qed.

Lemma find_or_create_failure_atomic_witness :
  repo_ (snd (child ["a"] ewma_container [] (inl invalid_parameter)
                one_ewma_path)) = repo_ one_ewma_path.
Proof.
  refine (proj1 (find_or_create_failure_atomic ["a"] ewma_container []
           (inl invalid_parameter) one_ewma_path _ invalid_parameter _)).
  reflexivity.
Defined.

(** An EWMA registered with window 10 and interval 1; a later request at the
    same path and tags with window 0 and interval 0 returns it instead of
    raising [invalid_parameter]. *)
Lemma ewma_existing_ignores_invalid_parameters :
  let s1 := run_requests scenario_metric_type
              [REwma "double" ["a"] 10 1 []] empty_registry in
  fst (ewma scenario_metric_type "double" ["a"] 0 0 [] s1) = inr 0%N.
Proof. vm_compute. reflexivity. Qed.

(** Depth of the registry lock after a trace. *)
Fixpoint registry_lock_depth (tr : list event) : Z :=
  match tr with
  | [] => 0
  | RegistryLock :: tr' => 1 + registry_lock_depth tr'
  | RegistryUnlock :: tr' => registry_lock_depth tr' - 1
  | _ :: tr' => registry_lock_depth tr'
  end.

(** Every handler call of a trace runs while the registry lock is free. *)
Definition handlers_outside_registry_lock (tr : list event) : Prop :=
  forall (pre : list event) p post, tr = (pre ++ Handler p :: post)%list ->
  registry_lock_depth pre = 0.

(** [visit_registered_metrics] on a registry with one path calls the
    handler while it holds the registry lock. *)
Lemma visit_handler_runs_under_registry_lock :
  trace_ (visit_registered_metrics one_ewma_path) =
    [RegistryLock; Handler ["a"]; RegistryUnlock] /\
  ~ handlers_outside_registry_lock
      (trace_ (visit_registered_metrics one_ewma_path)).
Proof.
  assert (Ht : trace_ (visit_registered_metrics one_ewma_path) =
                 [RegistryLock; Handler ["a"]; RegistryUnlock])
    by (vm_compute; reflexivity).
  split; [exact Ht|]. rewrite Ht. intros H.
  specialize (H [RegistryLock] ["a"] [RegistryUnlock] eq_refl).
  discriminate H.
Qed.

(** A counter registered at ["a"; "b"], then another request at ["x"]: an
    [ewma] request at ["a"; "b"] throws the mismatch. *)
Lemma path_type_fixed_witness :
  fst (run_request scenario_metric_type (REwma "double" ["a"; "b"] 10 1 [])
         (run_requests scenario_metric_type [RCounter "int64_t" ["x"] 3 []]
            (snd (run_request scenario_metric_type
                    (RCounter "int64_t" ["a"; "b"] 1 []) empty_registry)))) =
    inl (metric_type_mismatch "counter" "ewma").
Proof.
  apply (path_type_fixed scenario_metric_type (RCounter "int64_t" ["a"; "b"] 1 [])
           empty_registry 0%N [RCounter "int64_t" ["x"] 3 []]
           (REwma "double" ["a"; "b"] 10 1 [])).
  - vm_compute. reflexivity.
  - reflexivity.
  - simpl. discriminate.
Defined.

(** [counter(["a"; "b"], {host: x})] next to the counter of scenario 6. *)
Lemma counter_default_fresh_witness :
  fst (counter_default scenario_metric_type "int64_t" ["a"; "b"] [("host", "x")]
         scenario6_counter) = inr (next_ scenario6_counter).
Proof.
  refine (proj1 (counter_default_fresh scenario_metric_type "int64_t" ["a"; "b"]
                   [("host", "x")] scenario6_counter _ _)).
  - vm_compute. reflexivity.
  - intros c Hc. vm_compute in Hc. injection Hc as <-. reflexivity.
Defined.

Close Scope string_scope.

(* ------------------------------------------------------------------ *)
(** ** [registered_metric<T>::aggregate_all] *)

Section Aggregate.

(** The instrument type [TMetricType], its snapshot type, [snapshot()] and
    the in-place [merge] of snapshots ([result.merge(x)] makes [result]
    become [merge result x]). *)
Variables (K snapshot : Type).
Variable snapshot_of : K -> snapshot.
Variable merge : snapshot -> snapshot -> snapshot.

(** Effects of [aggregate_all]: the container lock and the visitor call. *)
Inductive agg_event :=
| ALock
| AUnlock
| AVisit (result : snapshot).

(** The [for (++itr; itr != metrics_.end(); ++itr)] loop. *)
Fixpoint merge_rest (result : snapshot) (rest : list (tag_collection * K))
  : snapshot :=
  match rest with
  | [] => result
  | (_, m) :: rest' => merge_rest (merge result (snapshot_of m)) rest'
  end.

(** [aggregate_all(visitor)] on the map [metrics_]: the visitor calls it
    makes, with the lock events. On an empty map it returns (the
    [unique_lock] is released by its destructor). *)
Definition aggregate_all (metrics : gmap tag_collection K) : list agg_event :=
  match map_to_list metrics with
  | [] => [ALock; AUnlock]
  | (_, m) :: rest =>
      let result := merge_rest (snapshot_of m) rest in
      [ALock; AUnlock; AVisit result]
  end.

(** The visitor calls of a trace. *)
Definition visits (tr : list agg_event) : list snapshot :=
  omap (fun e => match e with AVisit r => Some r | _ => None end) tr.

Lemma merge_rest_fold result rest :
  merge_rest result rest =
    foldl merge result (snapshot_of <$> rest.*2).
Proof.
  revert result. induction rest as [|[t m] rest IH]; intros result; simpl.
  - reflexivity.
  - apply IH.
Qed.

(** C5: on an empty container the visitor is never called; on a non-empty
    one it is called exactly once, with the snapshots of all its
    instruments (in iteration order) folded pairwise by [merge]. *)
Theorem aggregate_visits_once (metrics : gmap tag_collection K) :
  (metrics = ∅ -> visits (aggregate_all metrics) = []) /\
  (metrics <> ∅ ->
     exists s0 ss,
       snapshot_of <$> (map_to_list metrics).*2 = s0 :: ss /\
       visits (aggregate_all metrics) = [foldl merge s0 ss]).
Proof.
  unfold aggregate_all. split.
  - intros ->. rewrite map_to_list_empty. reflexivity.
  - intros Hne. destruct (map_to_list metrics) as [|[t m] rest] eqn:Hl.
    + apply map_to_list_empty_iff in Hl. contradiction.
    + exists (snapshot_of m), (snapshot_of <$> rest.*2). split.
      * reflexivity.
      * simpl. rewrite merge_rest_fold. reflexivity.
Qed.

End Aggregate.

(** Counters: the snapshot is the value and [merge] is addition. *)
Example aggregate_counters :
  visits Z (aggregate_all Z Z (fun v => v) Z.add
     (<[ [("host", "a")%string] := 3 ]> (<[ [("host", "b")%string] := 4 ]> ∅)))
  = [7].
Proof. vm_compute. reflexivity. Qed.

(* ------------------------------------------------------------------ *)
(** ** [registered_metric<T>::visit_each] *)

Section VisitEach.

(** The instrument type, its snapshot type and [snapshot()], and the type
    of the exceptions a handler may throw. *)
Variables (K snapshot exn : Type).
Variable snapshot_of : K -> snapshot.

(** The handler bound by [invokable_snapshot_visitor_builder::construct]
    to the tags of the instrument: [handler(tags, snapshot)], [Some e] when
    it throws [e]. *)
Variable handler : tag_collection -> snapshot -> option exn.

(** Effects of [visit_each]: the container lock and the handler calls. *)
Inductive visit_event :=
| VLock
| VUnlock
| VCall (tags : tag_collection) (snap : snapshot).

(** The [for (auto& p : metrics_)] loop: construct the visitor for
    [p.first], call it on [p.second.snapshot()]; when the call throws, the
    visitor is destroyed and the exception rethrown, ending the loop. *)
Fixpoint visit_loop (l : list (tag_collection * K))
  : option exn * list visit_event :=
  match l with
  | [] => (None, [])
  | (tags, m) :: rest =>
      let snap := snapshot_of m in
      match handler tags snap with
      | Some e => (Some e, [VCall tags snap])
      | None => let '(r, evs) := visit_loop rest in (r, VCall tags snap :: evs)
      end
  end.

(** [visit_each(builder)]: the loop runs under the [lock_guard], which
    releases the lock when the loop ends and when an exception leaves it. *)
Definition visit_each (metrics : gmap tag_collection K)
  : option exn * list visit_event :=
  let '(r, evs) := visit_loop (map_to_list metrics) in
  (r, [VLock] ++ evs ++ [VUnlock]).

Lemma visit_loop_spec (l : list (tag_collection * K)) :
  let call := fun pr : tag_collection * K => VCall pr.1 (snapshot_of pr.2) in
  (fst (visit_loop l) = None /\ snd (visit_loop l) = map call l /\
   forall pr, pr ∈ l -> handler pr.1 (snapshot_of pr.2) = None) \/
  (exists pre pr post e, l = pre ++ pr :: post /\
     (forall q, q ∈ pre -> handler q.1 (snapshot_of q.2) = None) /\
     handler pr.1 (snapshot_of pr.2) = Some e /\
     fst (visit_loop l) = Some e /\ snd (visit_loop l) = map call (pre ++ [pr])).
Proof.
  intros call. induction l as [|[t m] l IH]; simpl.
  - left. split; [reflexivity|]. split; [reflexivity|].
    intros pr Hpr. inversion Hpr.
  - destruct (handler t (snapshot_of m)) as [e|] eqn:Hh.
    + right. exists [], (t, m), l, e. simpl. repeat split; auto.
      intros q Hq. inversion Hq.
    + destruct (visit_loop l) as [r evs]. simpl in IH |- *.
      destruct IH as [(-> & -> & Hall) | (pre & pr & post & e & -> & Hpre & He & -> & ->)].
      * left. split; [reflexivity|]. split; [reflexivity|].
        intros pr Hpr. apply elem_of_cons in Hpr as [->|Hpr]; auto.
      * right. exists ((t, m) :: pre), pr, post, e. simpl.
        split; [reflexivity|]. split; [|auto].
        intros q Hq. apply elem_of_cons in Hq as [->|Hq]; auto.
Qed.

(** X8: [visit_each] holds the container lock during all handler calls and
    releases it at the end, also when a handler throws. When no handler
    throws, the handler is called exactly once for every tag set of the
    container, with the snapshot of its instrument, in iteration order.
    When a handler throws, the calls stop at the first call that throws,
    and its exception is propagated. *)
Theorem visit_each_calls_each_tag_set (metrics : gmap tag_collection K) :
  let l := map_to_list metrics in
  let call := fun pr : tag_collection * K => VCall pr.1 (snapshot_of pr.2) in
  NoDup l.*1 /\ (forall t m, (t, m) ∈ l <-> metrics !! t = Some m) /\
  exists evs, snd (visit_each metrics) = [VLock] ++ evs ++ [VUnlock] /\
  ((fst (visit_each metrics) = None /\ evs = map call l /\
    forall pr, pr ∈ l -> handler pr.1 (snapshot_of pr.2) = None) \/
   (exists pre pr post e, l = pre ++ pr :: post /\
      (forall q, q ∈ pre -> handler q.1 (snapshot_of q.2) = None) /\
      handler pr.1 (snapshot_of pr.2) = Some e /\
      fst (visit_each metrics) = Some e /\ evs = map call (pre ++ [pr]))).
Proof.
  intros l call. split; [apply NoDup_fst_map_to_list|]. split.
  { intros t m. apply elem_of_map_to_list. }
  pose proof (visit_loop_spec l) as Hs. unfold visit_each. fold l.
  destruct (visit_loop l) as [r evs]. simpl in Hs |- *.
  exists evs. split; [reflexivity|]. exact Hs.
Qed.

End VisitEach.

(* ------------------------------------------------------------------ *)
(** ** The skiplist *)

Module Skiplist.

Local Open Scope Z_scope.

(** Modelled from the spec: skiplist.hpp is not in the sources (only its
    tests, src/test/skiplist_test.cpp, are). Section 4.1 of the spec: the
    logical state is the bottom-level (level-0) list; upper levels are
    shortcuts and are not modelled. Keys are of a totally ordered type
    ([Z] here; the tests use doubles). Nodes are never freed while an
    iterator can observe them, so a node keeps its index in [nodes] for the
    whole run; erasing a node sets its deletion mark and unlinks it from the
    level-0 list. *)
Record node := mkNode { key : Z; marked : bool }.

Record skiplist := mkSkiplist {
  nodes : list node;       (* every node ever allocated, by address *)
  level0 : list nat        (* the level-0 list from the head *)
}.

Definition empty : skiplist := mkSkiplist [] [].

(** Search (spec 4.1, step 1) on level 0: the predecessors, whose keys are
    below [k], and the rest of the list from the first node whose key is
    [>= k]. *)
Fixpoint search (ns : list node) (k : Z) (l : list nat) : list nat * list nat :=
  match l with
  | [] => ([], [])
  | id :: l' =>
      match ns !! id with
      | Some n =>
          if key n <? k then let '(pre, post) := search ns k l' in (id :: pre, post)
          else ([], l)
      | None => ([], l)
      end
  end.

(** [insert(key) -> bool] (spec 4.1, step 2): [false] when the level-0
    successor holds the key and is not marked; otherwise a new node is
    linked between the predecessors and the successor. *)
Definition insert (k : Z) (s : skiplist) : bool * skiplist :=
  let '(pre, post) := search (nodes s) k (level0 s) in
  let linked :=
    (true, mkSkiplist (nodes s ++ [mkNode k false])
                      (pre ++ length (nodes s) :: post)) in
  match post with
  | succ :: _ =>
      match nodes s !! succ with
      | Some n => if (key n =? k) && negb (marked n) then (false, s) else linked
      | None => linked
      end
  | [] => linked
  end.

(** [find(key) -> iterator]: the node holding the key, ignoring marked
    nodes; [None] is [end()]. *)
Definition find (k : Z) (s : skiplist) : option nat :=
  let '(_, post) := search (nodes s) k (level0 s) in
  match post with
  | succ :: _ =>
      match nodes s !! succ with
      | Some n => if (key n =? k) && negb (marked n) then Some succ else None
      | None => None
      end
  | [] => None
  end.

(** [erase(iter) -> bool] (spec 4.1, step 3): marks the node (the
    linearization point) and unlinks it; [false] when the iterator is
    [end()] or its node is already marked. *)
Definition erase (it : option nat) (s : skiplist) : bool * skiplist :=
  match it with
  | None => (false, s)
  | Some id =>
      match nodes s !! id with
      | Some n =>
          if marked n then (false, s)
          else (true, mkSkiplist (<[id := mkNode (key n) true]> (nodes s))
                                 (filter (fun j => j <> id) (level0 s)))
      | None => (false, s)
      end
  end.

(** The first node of [l] that is not marked and whose key is strictly
    greater than [x]. *)
Fixpoint first_greater (ns : list node) (x : Z) (l : list nat) : option nat :=
  match l with
  | [] => None
  | id :: l' =>
      match ns !! id with
      | Some n => if negb (marked n) && (x <? key n) then Some id
                  else first_greater ns x l'
      | None => first_greater ns x l'
      end
  end.

(** The level-0 forward pointers from node [id]. *)
Fixpoint after (id : nat) (l : list nat) : list nat :=
  match l with
  | [] => []
  | j :: l' => if decide (j = id) then l' else after id l'
  end.

(** The first node of [l] that is not marked. *)
Fixpoint first_live (ns : list node) (l : list nat) : option nat :=
  match l with
  | [] => None
  | id :: l' =>
      match ns !! id with
      | Some n => if marked n then first_live ns l' else Some id
      | None => first_live ns l'
      end
  end.

(** [begin()]. *)
Definition begin (s : skiplist) : option nat := first_live (nodes s) (level0 s).

(** Iterator increment (spec 4.1, iterator semantics): from the node the
    iterator points at, advance along the level-0 forward pointers, skipping
    marked nodes and nodes whose key is not strictly greater than the key
    last yielded. A node that has been erased is no longer linked; its
    iterator re-enters the level-0 list from the head. *)
Definition increment (s : skiplist) (it : option nat) : option nat :=
  match it with
  | None => None
  | Some id =>
      match nodes s !! id with
      | None => None
      | Some n =>
          let start := if marked n then level0 s else after id (level0 s) in
          first_greater (nodes s) (key n) start
      end
  end.

(** Dereference. *)
Definition deref (s : skiplist) (it : option nat) : option Z :=
  match it with
  | None => None
  | Some id => key <$> nodes s !! id
  end.

(** The keys visited by a full iteration: the live nodes of level 0. *)
Definition to_list (s : skiplist) : list Z :=
  omap (fun id => match nodes s !! id with
                  | Some n => if marked n then None else Some (key n)
                  | None => None
                  end) (level0 s).

Inductive op :=
| Insert (k : Z)
| Erase (it : option nat).

Definition run_op (s : skiplist) (o : op) : skiplist :=
  match o with
  | Insert k => snd (insert k s)
  | Erase it => snd (erase it s)
  end.

Definition run (ops : list op) (s : skiplist) : skiplist := fold_left run_op ops s.

(** The range [begin()] to [end()] read out, as the tests do with
    [std::vector<double> values(list.begin(), list.end())]: dereference,
    increment, until [end()]. [fuel] bounds the number of steps. *)
Fixpoint collect (s : skiplist) (fuel : nat) (it : option nat) : list Z :=
  match fuel with
  | O => []
  | S fuel' =>
      match deref s it with
      | None => []
      | Some k => k :: collect s fuel' (increment s it)
      end
  end.

End Skiplist.

Module SkiplistScenarios.
Import Skiplist.
Local Open Scope Z_scope.

(** End-to-end scenario 3 of the spec, keys scaled by 10^7:
    8.9988, 15.6788, 5233.05, 8000, 10000.4050001. *)
Definition k1 := 89988000.
Definition k2 := 156788000.
Definition k3 := 52330500000.
Definition k4 := 80000000000.
Definition k5 := 100004050001.

Definition s0 := run [Insert k4; Insert k3; Insert k1] empty.
Definition it0 := begin s0.
Definition s1 := run [Insert k2] s0.
Definition it1 := increment s1 it0.
Definition it2 := increment s1 it1.
Definition s2 := run [Insert k5] s1.
Definition it3 := increment s2 it2.
Definition s3 := run [Erase (find k4 s2)] s2.
Definition it4 := increment s3 it3.

Example scenario3 :
  deref s0 it0 = Some k1 /\ deref s1 it1 = Some k2 /\ deref s1 it2 = Some k3 /\
  deref s2 it3 = Some k4 /\ deref s3 it4 = Some k5.
Proof. vm_compute. repeat split. Qed.

Example scenario2 :
  to_list (run [Insert k1; Insert k2; Insert k1; Insert k3] empty) = [k1; k2; k3].
Proof. vm_compute. reflexivity. Qed.

End SkiplistScenarios.

Module SkiplistFacts.
Import Skiplist.
Local Open Scope Z_scope.

(** The key at an address. *)
Definition nkey (ns : list node) (id : nat) : Z := default 0 (key <$> ns !! id).

(** The skiplist invariant: the level-0 list links only live (unmarked)
    nodes, in strictly increasing key order, and every live node is on it. *)
Record wf (s : skiplist) : Prop := {
  wf_live : forall id, id ∈ level0 s ->
            exists n, nodes s !! id = Some n /\ marked n = false;
  wf_sorted : StronglySorted (fun i j => nkey (nodes s) i < nkey (nodes s) j)
                             (level0 s);
  wf_linked : forall id n, nodes s !! id = Some n -> marked n = false ->
              id ∈ level0 s
}.

Lemma nkey_Some ns id n : ns !! id = Some n -> nkey ns id = key n.
Proof. intros H. unfold nkey. rewrite H. reflexivity. Qed.

Lemma search_spec ns k l :
  let '(pre, post) := search ns k l in
  l = pre ++ post /\
  (forall i, i ∈ pre -> nkey ns i < k) /\
  (forall h t, post = h :: t -> is_Some (ns !! h) -> k <= nkey ns h).
Proof.
  induction l as [|id l IH]; simpl.
  - split; [reflexivity|]. split; [intros i Hi; inversion Hi|].
    intros h t Ht. discriminate.
  - destruct (ns !! id) as [n|] eqn:Hn.
    + destruct (key n <? k) eqn:Hk.
      * destruct (search ns k l) as [pre post].
        destruct IH as (-> & Hpre & Hpost). split; [reflexivity|].
        split; [|exact Hpost].
        intros i Hi. apply elem_of_cons in Hi as [->|Hi]; [|auto].
        rewrite (nkey_Some _ _ _ Hn). apply Z.ltb_lt. exact Hk.
      * split; [reflexivity|]. split; [intros i Hi; inversion Hi|].
        intros h t Ht _. injection Ht as <- <-.
        rewrite (nkey_Some _ _ _ Hn). apply Z.ltb_ge. exact Hk.
    + split; [reflexivity|]. split; [intros i Hi; inversion Hi|].
      intros h t Ht [n Hn']. injection Ht as <- <-. congruence.
Qed.

Lemma first_greater_skip ns x l r :
  (forall i, i ∈ l -> nkey ns i <= x) ->
  first_greater ns x (l ++ r) = first_greater ns x r.
Proof.
  induction l as [|i l IH]; intros Hl; simpl; [reflexivity|].
  destruct (ns !! i) as [n|] eqn:Hn.
  - assert (Hle : key n <= x).
    { rewrite <- (nkey_Some _ _ _ Hn). apply Hl. left. }
    replace (x <? key n) with false by (symmetry; apply Z.ltb_ge; lia).
    rewrite andb_false_r. apply IH. intros j Hj. apply Hl. right. exact Hj.
  - apply IH. intros j Hj. apply Hl. right. exact Hj.
Qed.

Lemma first_greater_sorted ns x l :
  (forall id, id ∈ l -> exists n, ns !! id = Some n /\ marked n = false) ->
  StronglySorted (fun i j => nkey ns i < nkey ns j) l ->
  match first_greater ns x l with
  | Some j => j ∈ l /\ x < nkey ns j /\
              forall i, i ∈ l -> x < nkey ns i -> nkey ns j <= nkey ns i
  | None => forall i, i ∈ l -> nkey ns i <= x
  end.
Proof.
  induction l as [|id l IH]; intros Hlive Hs; simpl.
  - intros i Hi. inversion Hi.
  - apply StronglySorted_cons in Hs as [Hhd Htl].
    destruct (Hlive id (list_elem_of_here _ _)) as (n & Hn & Hm).
    rewrite Hn, Hm. simpl.
    assert (IH' := IH (fun j Hj => Hlive j (list_elem_of_further _ _ _ Hj)) Htl).
    destruct (x <? key n) eqn:Hx.
    + apply Z.ltb_lt in Hx. rewrite <- (nkey_Some _ _ _ Hn) in Hx.
      split; [left|]. split; [exact Hx|].
      intros i Hi Hxi. apply elem_of_cons in Hi as [->|Hi]; [lia|].
      rewrite Forall_forall in Hhd. specialize (Hhd i Hi). lia.
    + apply Z.ltb_ge in Hx. rewrite <- (nkey_Some _ _ _ Hn) in Hx.
      destruct (first_greater ns x l) as [j|].
      * destruct IH' as (Hj & Hxj & Hmin). split; [right; exact Hj|].
        split; [exact Hxj|]. intros i Hi Hxi.
        apply elem_of_cons in Hi as [->|Hi]; [lia|]. auto.
      * intros i Hi. apply elem_of_cons in Hi as [->|Hi]; [lia|]. auto.
Qed.

Lemma to_list_wf s :
  wf s -> to_list s = map (nkey (nodes s)) (level0 s).
Proof.
  intros [Hlive _ _]. unfold to_list.
  induction (level0 s) as [|id l IH]; simpl; [reflexivity|].
  destruct (Hlive id (list_elem_of_here _ _)) as (n & Hn & Hm).
  rewrite Hn, Hm, (nkey_Some _ _ _ Hn). f_equal.
  apply IH. intros j Hj. apply Hlive. right. exact Hj.
Qed.

Lemma elem_of_to_list s z :
  wf s -> z ∈ to_list s <-> exists i, i ∈ level0 s /\ nkey (nodes s) i = z.
Proof.
  intros Hw. rewrite (to_list_wf s Hw), list_elem_of_fmap.
  split; intros (i & H1 & H2); exists i; split; auto.
Qed.

Lemma sorted_congr (f g : nat -> Z) (l : list nat) :
  (forall i, i ∈ l -> g i = f i) ->
  StronglySorted (fun i j => f i < f j) l ->
  StronglySorted (fun i j => g i < g j) l.
Proof.
  intros Hfg Hs. induction Hs as [|a l Hs IH Hall]; constructor.
  - apply IH. intros i Hi. apply Hfg. right. exact Hi.
  - rewrite Forall_forall in *. intros j Hj.
    rewrite (Hfg a (list_elem_of_here _ _)), (Hfg j (list_elem_of_further _ _ _ Hj)).
    apply Hall. exact Hj.
Qed.

Lemma sorted_filter (R : nat -> nat -> Prop) (P : nat -> Prop)
    `{forall x, Decision (P x)} (l : list nat) :
  StronglySorted R l -> StronglySorted R (filter P l).
Proof.
  intros Hs. induction Hs as [|a l Hs IH Hall]; [constructor|].
  rewrite filter_cons. destruct (decide (P a)); [|exact IH].
  constructor; [exact IH|]. rewrite Forall_forall in *.
  intros j Hj. apply list_elem_of_filter in Hj as [_ Hj]. auto.
Qed.

Lemma level0_bound s id : wf s -> id ∈ level0 s -> (id < length (nodes s))%nat.
Proof.
  intros Hw Hid. destruct (wf_live s Hw id Hid) as (n & Hn & _).
  eapply lookup_lt_Some. exact Hn.
Qed.

Lemma nkey_app_l ns l i : (i < length ns)%nat -> nkey (ns ++ l) i = nkey ns i.
Proof. intros Hi. unfold nkey. rewrite lookup_app_l by exact Hi. reflexivity. Qed.

Lemma nkey_app_new ns m : nkey (ns ++ [m]) (length ns) = key m.
Proof.
  unfold nkey. rewrite lookup_app_r by lia.
  rewrite Nat.sub_diag. reflexivity.
Qed.

Lemma insert_present s k :
  wf s -> k ∈ to_list s -> insert k s = (false, s).
Proof.
  intros Hw Hk. apply (elem_of_to_list s k Hw) in Hk as (i & Hi & Hik).
  unfold insert. pose proof (search_spec (nodes s) k (level0 s)) as Hsr.
  destruct (search (nodes s) k (level0 s)) as [pre post].
  destruct Hsr as (Hl & Hpre & Hpost).
  assert (Hipost : i ∈ post).
  { rewrite Hl in Hi. apply elem_of_app in Hi as [Hi|Hi]; [|exact Hi].
    specialize (Hpre i Hi). lia. }
  destruct post as [|h t]; [inversion Hipost|].
  destruct (wf_live s Hw h) as (nh & Hnh & Hmh).
  { rewrite Hl. apply elem_of_app. right. left. }
  specialize (Hpost h t eq_refl ltac:(eexists; exact Hnh)).
  assert (Hle : nkey (nodes s) h <= nkey (nodes s) i).
  { apply elem_of_cons in Hipost as [->|Hit]; [lia|].
    pose proof (wf_sorted s Hw) as Hs. rewrite Hl in Hs.
    apply StronglySorted_app_1_r, StronglySorted_cons in Hs as [Hs _].
    rewrite Forall_forall in Hs. specialize (Hs i Hit). lia. }
  rewrite Hnh, Hmh. rewrite (nkey_Some _ _ _ Hnh) in Hpost, Hle.
  replace (key nh =? k) with true by (symmetry; apply Z.eqb_eq; lia).
  reflexivity.
Qed.

Lemma insert_absent s k :
  wf s -> k ∉ to_list s ->
  let '(pre, post) := search (nodes s) k (level0 s) in
  insert k s = (true, mkSkiplist (nodes s ++ [mkNode k false])
                                 (pre ++ length (nodes s) :: post)) /\
  level0 s = pre ++ post /\
  (forall i, i ∈ pre -> nkey (nodes s) i < k) /\
  (forall i, i ∈ post -> k < nkey (nodes s) i).
Proof.
  intros Hw Hk. unfold insert.
  pose proof (search_spec (nodes s) k (level0 s)) as Hsr.
  destruct (search (nodes s) k (level0 s)) as [pre post].
  destruct Hsr as (Hl & Hpre & Hpost).
  destruct post as [|h t].
  - repeat split; auto. intros i Hi. inversion Hi.
  - destruct (wf_live s Hw h) as (nh & Hnh & Hmh).
    { rewrite Hl. apply elem_of_app. right. left. }
    specialize (Hpost h t eq_refl ltac:(eexists; exact Hnh)).
    assert (Hne : nkey (nodes s) h <> k).
    { intros Heq. apply Hk. apply (elem_of_to_list s k Hw). exists h.
      split; [|exact Heq]. rewrite Hl. apply elem_of_app. right. left. }
    rewrite Hnh. rewrite (nkey_Some _ _ _ Hnh) in Hpost, Hne.
    replace (key nh =? k) with false by (symmetry; apply Z.eqb_neq; exact Hne).
    split; [reflexivity|]. split; [exact Hl|]. split; [exact Hpre|].
    intros i Hi. apply elem_of_cons in Hi as [->|Hit].
    + rewrite (nkey_Some _ _ _ Hnh). lia.
    + pose proof (wf_sorted s Hw) as Hs. rewrite Hl in Hs.
      apply StronglySorted_app_1_r, StronglySorted_cons in Hs as [Hs _].
      rewrite Forall_forall in Hs. specialize (Hs i Hit).
      rewrite (nkey_Some _ _ _ Hnh) in Hs. lia.
Qed.

Lemma wf_insert s k : wf s -> wf (snd (insert k s)).
Proof.
  intros Hw. destruct (decide (k ∈ to_list s)) as [Hk|Hk].
  { rewrite (insert_present s k Hw Hk). exact Hw. }
  pose proof (insert_absent s k Hw Hk) as Ha.
  destruct (search (nodes s) k (level0 s)) as [pre post].
  destruct Ha as (-> & Hl & Hpre & Hpost). simpl.
  assert (Hold : forall i, i ∈ pre ++ post -> (i < length (nodes s))%nat).
  { intros i Hi. apply (level0_bound s i Hw). rewrite Hl. exact Hi. }
  split; simpl.
  - intros id Hid. apply elem_of_app in Hid as [Hid|Hid];
      [|apply elem_of_cons in Hid as [->|Hid]].
    + destruct (wf_live s Hw id) as (n & Hn & Hm).
      { rewrite Hl. apply elem_of_app. left. exact Hid. }
      exists n. rewrite lookup_app_l by (eapply lookup_lt_Some; eauto). auto.
    + exists (mkNode k false). split; [|reflexivity].
      rewrite lookup_app_r by lia. rewrite Nat.sub_diag. reflexivity.
    + destruct (wf_live s Hw id) as (n & Hn & Hm).
      { rewrite Hl. apply elem_of_app. right. exact Hid. }
      exists n. rewrite lookup_app_l by (eapply lookup_lt_Some; eauto). auto.
  - pose proof (wf_sorted s Hw) as Hs. rewrite Hl in Hs.
    apply StronglySorted_app in Hs as (Hcross & Hspre & Hspost).
    apply StronglySorted_app_2.
    + intros x1 x2 Hx1 Hx2.
      rewrite nkey_app_l by (apply Hold; apply elem_of_app; left; exact Hx1).
      apply elem_of_cons in Hx2 as [->|Hx2].
      * rewrite nkey_app_new. simpl. apply Hpre. exact Hx1.
      * rewrite nkey_app_l by (apply Hold; apply elem_of_app; right; exact Hx2).
        apply Hcross; assumption.
    + eapply sorted_congr; [|exact Hspre]. intros i Hi.
      apply nkey_app_l. apply Hold. apply elem_of_app. left. exact Hi.
    + constructor.
      * eapply sorted_congr; [|exact Hspost]. intros i Hi.
        apply nkey_app_l. apply Hold. apply elem_of_app. right. exact Hi.
      * rewrite Forall_forall. intros j Hj. rewrite nkey_app_new. simpl.
        rewrite nkey_app_l by (apply Hold; apply elem_of_app; right; exact Hj).
        apply Hpost. exact Hj.
  - intros id n Hn Hm.
    destruct (decide (id < length (nodes s))%nat) as [Hlt|Hge].
    + rewrite lookup_app_l in Hn by exact Hlt.
      pose proof (wf_linked s Hw id n Hn Hm) as Hid. rewrite Hl in Hid.
      apply elem_of_app in Hid as [Hid|Hid]; apply elem_of_app; [left|right; right]; exact Hid.
    + apply lookup_lt_Some in Hn as Hlt. rewrite length_app in Hlt. simpl in Hlt.
      assert (id = length (nodes s)) as -> by lia.
      apply elem_of_app. right. left.
Qed.

Lemma wf_erase s it : wf s -> wf (snd (erase it s)).
Proof.
  intros Hw. destruct it as [id|]; simpl; [|exact Hw].
  destruct (nodes s !! id) as [n|] eqn:Hn; simpl; [|exact Hw].
  destruct (marked n) eqn:Hm; simpl; [exact Hw|].
  assert (Hid : (id < length (nodes s))%nat) by (eapply lookup_lt_Some; eauto).
  assert (Hkey : forall i, nkey (<[id := mkNode (key n) true]> (nodes s)) i =
                           nkey (nodes s) i).
  { intros i. unfold nkey. destruct (decide (i = id)) as [->|Hne].
    - rewrite list_lookup_insert_eq by exact Hid. rewrite Hn. reflexivity.
    - rewrite list_lookup_insert_ne by congruence. reflexivity. }
  split; simpl.
  - intros i Hi. apply list_elem_of_filter in Hi as [Hne Hi].
    rewrite list_lookup_insert_ne by congruence. apply (wf_live s Hw). exact Hi.
  - eapply sorted_congr; [intros i _; apply Hkey|].
    apply sorted_filter. apply (wf_sorted s Hw).
  - intros i ni Hni Hmi. apply list_elem_of_filter.
    destruct (decide (i = id)) as [->|Hne].
    + rewrite list_lookup_insert_eq in Hni by exact Hid.
      injection Hni as <-. discriminate.
    + rewrite list_lookup_insert_ne in Hni by congruence.
      split; [exact Hne|]. apply (wf_linked s Hw i ni Hni Hmi).
Qed.

Lemma wf_empty : wf empty.
Proof.
  split; simpl.
  - intros id Hid. inversion Hid.
  - constructor.
  - intros id n Hn. rewrite lookup_nil in Hn. discriminate.
Qed.

Lemma wf_run ops s : wf s -> wf (run ops s).
Proof.
  revert s. induction ops as [|o ops IH]; intros s Hw; simpl; [exact Hw|].
  apply IH. destruct o; simpl; [apply wf_insert | apply wf_erase]; exact Hw.
Qed.

(** Nodes are never freed and never change key. *)
Lemma run_keeps_node ops s id n :
  nodes s !! id = Some n ->
  exists n', nodes (run ops s) !! id = Some n' /\ key n' = key n.
Proof.
  revert s n. induction ops as [|o ops IH]; intros s n Hn; simpl.
  { exists n. auto. }
  assert (Hstep : exists n', nodes (run_op s o) !! id = Some n' /\ key n' = key n).
  { destruct o as [k|[j|]]; simpl.
    - unfold insert. destruct (search (nodes s) k (level0 s)) as [pre post].
      assert (Hl : nodes (true, mkSkiplist (nodes s ++ [mkNode k false])
                                 (pre ++ length (nodes s) :: post)).2 !! id = Some n).
      { simpl. rewrite lookup_app_l by (eapply lookup_lt_Some; eauto). exact Hn. }
      destruct post as [|h t]; [exists n; auto|].
      destruct (nodes s !! h) as [nh|]; [|exists n; auto].
      destruct ((key nh =? k) && negb (marked nh)); simpl; exists n; auto.
    - destruct (nodes s !! j) as [nj|] eqn:Hj; simpl; [|exists n; auto].
      destruct (marked nj); simpl; [exists n; auto|].
      destruct (decide (id = j)) as [->|Hne].
      + exists (mkNode (key nj) true).
        rewrite list_lookup_insert_eq by (eapply lookup_lt_Some; eauto).
        rewrite Hj in Hn. injection Hn as <-. auto.
      + exists n. rewrite list_lookup_insert_ne by congruence. auto.
    - exists n. auto. }
  destruct Hstep as (n1 & Hn1 & Hk1).
  destruct (IH (run_op s o) n1 Hn1) as (n' & Hn' & Hk').
  exists n'. split; [exact Hn'|]. congruence.
Qed.

Lemma after_app id pre post :
  id ∉ pre -> after id (pre ++ id :: post) = post.
Proof.
  induction pre as [|j pre IH]; intros Hni; simpl.
  - rewrite decide_True by reflexivity. reflexivity.
  - rewrite decide_False by (intros ->; apply Hni; left).
    apply IH. intros Hin. apply Hni. right. exact Hin.
Qed.

(** From a node with key [x], an increment lands on the first live level-0
    node with a key greater than [x], whether or not the node is still
    linked. *)
Lemma increment_from_head s id n :
  wf s -> nodes s !! id = Some n ->
  increment s (Some id) = first_greater (nodes s) (key n) (level0 s).
Proof.
  intros Hw Hn. unfold increment. rewrite Hn.
  destruct (marked n) eqn:Hm; [reflexivity|].
  pose proof (wf_linked s Hw id n Hn Hm) as Hid.
  apply list_elem_of_split in Hid as (pre & post & Hl). rewrite Hl.
  pose proof (wf_sorted s Hw) as Hs. rewrite Hl in Hs.
  assert (Hpre : forall i, i ∈ pre -> nkey (nodes s) i < nkey (nodes s) id).
  { intros i Hi.
    exact (StronglySorted_app_1_elem_of
             (fun i j => nkey (nodes s) i < nkey (nodes s) j)
             pre (id :: post) i id Hs Hi (list_elem_of_here _ _)). }
  rewrite after_app by (intros Hin; specialize (Hpre id Hin); lia).
  replace (pre ++ id :: post) with ((pre ++ [id]) ++ post)
    by (rewrite <- app_assoc; reflexivity).
  rewrite first_greater_skip; [reflexivity|].
  intros i Hi. rewrite <- (nkey_Some _ _ _ Hn).
  apply elem_of_app in Hi as [Hi|Hi].
  - specialize (Hpre i Hi). lia.
  - apply elem_of_cons in Hi as [->|Hi]; [lia|inversion Hi].
Qed.

End SkiplistFacts.

Module SkiplistClaims.
Import Skiplist SkiplistFacts.
Local Open Scope Z_scope.

(** C2: take an iterator on the node [id] of a skiplist built by any
    operations, the node holding the key [x] it yielded. After any further
    inserts and erases (the node itself may be erased), incrementing it
    yields the smallest live key strictly greater than [x], or [end()] when
    there is none. *)
Theorem increment_next_live_key (ops1 ops2 : list op) (id : nat) (n : node)
    (Hn : nodes (run ops1 empty) !! id = Some n) :
  let s' := run ops2 (run ops1 empty) in
  match increment s' (Some id) with
  | Some j => exists y, deref s' (Some j) = Some y /\ y ∈ to_list s' /\
              key n < y /\ forall z, z ∈ to_list s' -> key n < z -> y <= z
  | None => forall z, z ∈ to_list s' -> z <= key n
  end.
Proof.
  intros s'.
  assert (Hw : wf s') by (apply wf_run, wf_run, wf_empty).
  destruct (run_keeps_node ops2 (run ops1 empty) id n Hn) as (n' & Hn' & Hk).
  fold s' in Hn'. rewrite (increment_from_head s' id n' Hw Hn'), Hk.
  pose proof (first_greater_sorted (nodes s') (key n) (level0 s')
                (wf_live s' Hw) (wf_sorted s' Hw)) as Hfg.
  destruct (first_greater (nodes s') (key n) (level0 s')) as [j|].
  - destruct Hfg as (Hj & Hx & Hmin).
    destruct (wf_live s' Hw j Hj) as (nj & Hnj & _).
    exists (key nj). rewrite <- (nkey_Some _ _ _ Hnj).
    split; [simpl; rewrite Hnj; rewrite (nkey_Some _ _ _ Hnj); reflexivity|].
    split; [apply (elem_of_to_list s' _ Hw); exists j; auto|].
    split; [exact Hx|].
    intros z Hz Hxz. apply (elem_of_to_list s' _ Hw) in Hz as (i & Hi & <-).
    auto.
  - intros z Hz. apply (elem_of_to_list s' _ Hw) in Hz as (i & Hi & <-). auto.
Qed.

(** C4: on a skiplist built by any operations, [insert k] returns [true]
    exactly when [k] is absent, and then adds [k] and nothing else to the
    iterated keys; when [k] is present it changes nothing; so a second
    [insert k] returns [false] and leaves the skiplist unchanged. *)
Theorem insert_once (ops : list op) (k : Z) :
  let s := run ops empty in
  (fst (insert k s) = true <-> k ∉ to_list s) /\
  (forall z, z ∈ to_list (snd (insert k s)) <-> z = k \/ z ∈ to_list s) /\
  (k ∈ to_list s -> snd (insert k s) = s) /\
  insert k (snd (insert k s)) = (false, snd (insert k s)).
Proof.
  intros s. assert (Hw : wf s) by (apply wf_run, wf_empty).
  assert (Hmem : forall z, z ∈ to_list (snd (insert k s)) <-> z = k \/ z ∈ to_list s).
  { intros z. destruct (decide (k ∈ to_list s)) as [Hk|Hk].
    - rewrite (insert_present s k Hw Hk). simpl.
      split; [auto|]. intros [->|Hz]; auto.
    - pose proof (wf_insert s k Hw) as Hw'.
      pose proof (insert_absent s k Hw Hk) as Ha.
      destruct (search (nodes s) k (level0 s)) as [pre post].
      destruct Ha as (Hins & Hl & _ & _). rewrite Hins in Hw' |- *. simpl in *.
      rewrite (elem_of_to_list _ z Hw'), (elem_of_to_list s z Hw). simpl.
      assert (Hold : forall i, i ∈ pre ++ post -> (i < length (nodes s))%nat).
      { intros i Hi. apply (level0_bound s i Hw). rewrite Hl. exact Hi. }
      rewrite Hl. split.
      + intros (i & Hi & <-). apply elem_of_app in Hi as [Hi|Hi];
          [|apply elem_of_cons in Hi as [->|Hi]].
        * right. exists i. rewrite elem_of_app. split; [auto|].
          symmetry. apply nkey_app_l. apply Hold. apply elem_of_app. auto.
        * left. rewrite nkey_app_new. reflexivity.
        * right. exists i. rewrite elem_of_app. split; [auto|].
          symmetry. apply nkey_app_l. apply Hold. apply elem_of_app. auto.
      + intros [->|(i & Hi & <-)].
        * exists (length (nodes s)). rewrite nkey_app_new.
          split; [apply elem_of_app; right; left|reflexivity].
        * exists i. split.
          -- apply elem_of_app in Hi as [Hi|Hi]; apply elem_of_app;
               [left|right; right]; exact Hi.
          -- apply nkey_app_l. apply Hold. exact Hi. }
  split; [|split; [exact Hmem|split]].
  - destruct (decide (k ∈ to_list s)) as [Hk|Hk].
    + rewrite (insert_present s k Hw Hk). simpl. split; [discriminate|].
      intros Hn. contradiction.
    + pose proof (insert_absent s k Hw Hk) as Ha.
      destruct (search (nodes s) k (level0 s)) as [pre post].
      destruct Ha as (-> & _). simpl. tauto.
  - intros Hk. rewrite (insert_present s k Hw Hk). reflexivity.
  - apply insert_present; [apply wf_insert; exact Hw|].
    apply Hmem. left. reflexivity.
Qed.

(** Scenario 3: the iterator on 8.9988 after inserting 15.6788, erasing
    8.9988 itself and inserting 10000.4050001 moves to 15.6788. *)
Lemma increment_next_live_key_witness :
  let s' := run [Insert SkiplistScenarios.k2; Erase (Some 2%nat);
                 Insert SkiplistScenarios.k5]
              (run [Insert SkiplistScenarios.k4; Insert SkiplistScenarios.k3;
                    Insert SkiplistScenarios.k1] empty) in
  match increment s' (Some 2%nat) with
  | Some j => exists y, deref s' (Some j) = Some y /\ y ∈ to_list s' /\
              SkiplistScenarios.k1 < y /\
              forall z, z ∈ to_list s' -> SkiplistScenarios.k1 < z -> y <= z
  | None => forall z, z ∈ to_list s' -> z <= SkiplistScenarios.k1
  end.
Proof.
  exact (increment_next_live_key
           [Insert SkiplistScenarios.k4; Insert SkiplistScenarios.k3;
            Insert SkiplistScenarios.k1]
           [Insert SkiplistScenarios.k2; Erase (Some 2%nat);
            Insert SkiplistScenarios.k5]
           2%nat (mkNode SkiplistScenarios.k1 false) eq_refl).
Defined.

End SkiplistClaims.

Module SkiplistMore.
Import Skiplist SkiplistFacts.
Local Open Scope Z_scope.

Lemma sorted_strict_unique (f : nat -> Z) (l : list nat) i j :
  StronglySorted (fun a b => f a < f b) l -> i ∈ l -> j ∈ l -> f i = f j -> i = j.
Proof.
  intros Hs. induction Hs as [|a l Hs IH Hall]; intros Hi Hj Hf;
    [inversion Hi|].
  rewrite Forall_forall in Hall.
  apply elem_of_cons in Hi as [->|Hi]; apply elem_of_cons in Hj as [->|Hj].
  - reflexivity.
  - specialize (Hall j Hj). lia.
  - specialize (Hall i Hi). lia.
  - auto.
Qed.

Lemma sorted_nodup (f : nat -> Z) (l : list nat) :
  StronglySorted (fun a b => f a < f b) l -> NoDup l.
Proof.
  intros Hs. induction Hs as [|a l Hs IH Hall]; constructor; [|exact IH].
  intros Ha. rewrite Forall_forall in Hall. specialize (Hall a Ha). lia.
Qed.

Lemma sorted_map (f : nat -> Z) (l : list nat) :
  StronglySorted (fun a b => f a < f b) l -> StronglySorted Z.lt (map f l).
Proof.
  intros Hs. induction Hs as [|a l Hs IH Hall]; simpl; constructor; [exact IH|].
  rewrite Forall_forall in Hall. apply Forall_forall. intros z Hz.
  apply list_elem_of_fmap in Hz as (j & -> & Hj). apply Hall. exact Hj.
Qed.

Lemma wf_key_unique s i j :
  wf s -> i ∈ level0 s -> j ∈ level0 s -> nkey (nodes s) i = nkey (nodes s) j -> i = j.
Proof. intros Hw. apply sorted_strict_unique, (wf_sorted s Hw). Qed.

Lemma wf_nodup s : wf s -> NoDup (level0 s).
Proof. intros Hw. eapply sorted_nodup, (wf_sorted s Hw). Qed.

Lemma level0_length s : wf s -> (length (level0 s) <= length (nodes s))%nat.
Proof.
  intros Hw. rewrite <- (length_seq (length (nodes s)) 0).
  apply NoDup_incl_length; [apply NoDup_ListNoDup, wf_nodup; exact Hw|].
  intros j Hj. apply in_seq. apply list_elem_of_In in Hj.
  pose proof (level0_bound s j Hw Hj). lia.
Qed.

(** [find] returns exactly the linked node holding the key. *)
Lemma find_spec s k id :
  wf s -> find k s = Some id <-> id ∈ level0 s /\ nkey (nodes s) id = k.
Proof.
  intros Hw. unfold find.
  pose proof (search_spec (nodes s) k (level0 s)) as Hsr.
  destruct (search (nodes s) k (level0 s)) as [pre post].
  destruct Hsr as (Hl & Hpre & Hpost). split.
  - destruct post as [|h t]; [discriminate|].
    destruct (nodes s !! h) as [nh|] eqn:Hnh; [|discriminate].
    destruct ((key nh =? k) && negb (marked nh)) eqn:Hk; [|discriminate].
    intros E. injection E as <-. apply andb_prop in Hk as [Hk _].
    apply Z.eqb_eq in Hk. split.
    + rewrite Hl. apply elem_of_app. right. left.
    + rewrite (nkey_Some _ _ _ Hnh). exact Hk.
  - intros [Hid Hk].
    assert (Hipost : id ∈ post).
    { rewrite Hl in Hid. apply elem_of_app in Hid as [Hid|Hid]; [|exact Hid].
      specialize (Hpre id Hid). lia. }
    destruct post as [|h t]; [inversion Hipost|].
    assert (Hh : h ∈ level0 s) by (rewrite Hl; apply elem_of_app; right; left).
    destruct (wf_live s Hw h Hh) as (nh & Hnh & Hmh).
    specialize (Hpost h t eq_refl ltac:(eexists; exact Hnh)).
    assert (Hle : nkey (nodes s) h <= nkey (nodes s) id).
    { apply elem_of_cons in Hipost as [->|Hit]; [lia|].
      pose proof (wf_sorted s Hw) as Hs. rewrite Hl in Hs.
      apply StronglySorted_app_1_r, StronglySorted_cons in Hs as [Hs _].
      rewrite Forall_forall in Hs. specialize (Hs id Hit). lia. }
    assert (Heq : h = id) by (apply (wf_key_unique s); auto; lia). subst h.
    rewrite Hnh, Hmh. rewrite (nkey_Some _ _ _ Hnh) in Hk.
    rewrite Hk, Z.eqb_refl. reflexivity.
Qed.

(** Erasing through an iterator on a linked node unlinks exactly that
    node. *)
Lemma erase_linked s id :
  wf s -> id ∈ level0 s ->
  fst (erase (Some id) s) = true /\
  to_list (snd (erase (Some id) s)) =
    map (nkey (nodes s)) (filter (fun j => j <> id) (level0 s)).
Proof.
  intros Hw Hid. pose proof (wf_erase s (Some id) Hw) as Hw'.
  destruct (wf_live s Hw id Hid) as (n & Hn & Hm).
  assert (Hlt : (id < length (nodes s))%nat) by (eapply lookup_lt_Some; eauto).
  unfold erase in Hw' |- *. rewrite Hn, Hm in Hw' |- *. simpl in Hw' |- *.
  split; [reflexivity|]. rewrite (to_list_wf _ Hw'). simpl.
  apply map_ext. intros i. unfold nkey.
  destruct (decide (i = id)) as [->|Hne].
  - rewrite list_lookup_insert_eq by exact Hlt. rewrite Hn. reflexivity.
  - rewrite list_lookup_insert_ne by congruence. reflexivity.
Qed.

Lemma map_filter_key (f : nat -> Z) (l : list nat) id k :
  (forall j, j ∈ l -> f j = k <-> j = id) ->
  map f (filter (fun j => j <> id) l) = filter (fun z => z <> k) (map f l).
Proof.
  induction l as [|a l IH]; intros Hk; simpl; [reflexivity|].
  rewrite !filter_cons. specialize (Hk a (list_elem_of_here _ _)) as Ha.
  assert (IH' := IH (fun j Hj => Hk j (list_elem_of_further _ _ _ Hj))).
  destruct (decide (a = id)) as [->|Hne].
  - rewrite decide_False by tauto. rewrite decide_False by (intros H; apply H, Ha; reflexivity).
    exact IH'.
  - rewrite decide_True by exact Hne. rewrite decide_True by (intros H; apply Hne, Ha, H).
    simpl. f_equal. exact IH'.
Qed.

Lemma filter_none_eq (l : list Z) k :
  k ∉ l -> filter (fun z => z <> k) l = l.
Proof.
  induction l as [|a l IH]; intros Hk; simpl; [reflexivity|].
  rewrite filter_cons. rewrite decide_True by (intros ->; apply Hk; left).
  f_equal. apply IH. intros H. apply Hk. right. exact H.
Qed.

(** Reading out the range from a linked node to [end()]. *)
Lemma collect_from s pre id post fuel :
  wf s -> level0 s = pre ++ id :: post -> (length post < fuel)%nat ->
  collect s fuel (Some id) = map (nkey (nodes s)) (id :: post).
Proof.
  intros Hw. revert pre id fuel.
  induction post as [|j post IH]; intros pre id fuel Hl Hf.
  all: destruct fuel as [|fuel]; [simpl in Hf; lia|].
  all: assert (Hid : id ∈ level0 s) by (rewrite Hl; apply elem_of_app; right; left).
  all: destruct (wf_live s Hw id Hid) as (n & Hn & Hm).
  all: assert (Hnd : id ∉ pre)
         by (pose proof (wf_nodup s Hw) as Hnd; rewrite Hl in Hnd;
             apply NoDup_app in Hnd as (_ & Hnd & _); intros Hin;
             apply (Hnd id Hin); left).
  all: simpl; rewrite Hn; simpl; rewrite (nkey_Some _ _ _ Hn); f_equal.
  all: rewrite Hm, Hl, after_app by exact Hnd.
  - simpl. destruct fuel; reflexivity.
  - assert (Hj : j ∈ level0 s)
      by (rewrite Hl; apply elem_of_app; right; right; left).
    destruct (wf_live s Hw j Hj) as (nj & Hnj & Hmj).
    assert (Hlt : key n < key nj).
    { pose proof (wf_sorted s Hw) as Hs. rewrite Hl in Hs.
      apply StronglySorted_app_1_r, StronglySorted_cons in Hs as [Hs _].
      rewrite Forall_forall in Hs. specialize (Hs j (list_elem_of_here _ _)).
      rewrite (nkey_Some _ _ _ Hn), (nkey_Some _ _ _ Hnj) in Hs. exact Hs. }
    simpl. rewrite Hnj, Hmj. simpl.
    replace (key n <? key nj) with true by (symmetry; apply Z.ltb_lt; exact Hlt).
    apply (IH (pre ++ [id])); [rewrite Hl, <- app_assoc; reflexivity|].
    simpl in Hf. lia.
Qed.


Lemma filter_none_eq' (l : list nat) id :
  id ∉ l -> filter (fun j => j <> id) l = l.
Proof.
  induction l as [|a l IH]; intros Hk; simpl; [reflexivity|].
  rewrite filter_cons. rewrite decide_True by (intros ->; apply Hk; left).
  f_equal. apply IH. intros H. apply Hk. right. exact H.
Qed.

Lemma deref_linked s id :
  wf s -> id ∈ level0 s -> deref s (Some id) = Some (nkey (nodes s) id).
Proof.
  intros Hw Hid. destruct (wf_live s Hw id Hid) as (n & Hn & _).
  simpl. rewrite Hn, (nkey_Some _ _ _ Hn). reflexivity.
Qed.

Lemma find_member s k :
  wf s -> k ∈ to_list s ->
  exists id, find k s = Some id /\ deref s (Some id) = Some k.
Proof.
  intros Hw Hk. apply (elem_of_to_list s k Hw) in Hk as (id & Hid & Hk).
  exists id. split; [apply find_spec; auto|].
  rewrite (deref_linked s id Hw Hid), Hk. reflexivity.
Qed.

Lemma insert_mem_self s k : wf s -> k ∈ to_list (snd (insert k s)).
Proof.
  intros Hw. destruct (decide (k ∈ to_list s)) as [Hk|Hk].
  { rewrite (insert_present s k Hw Hk). exact Hk. }
  pose proof (wf_insert s k Hw) as Hw'. pose proof (insert_absent s k Hw Hk) as Ha.
  destruct (search (nodes s) k (level0 s)) as [pre post].
  destruct Ha as (Hins & _). rewrite Hins in Hw' |- *. simpl in *.
  apply (elem_of_to_list _ k Hw'). exists (length (nodes s)). simpl.
  split; [apply elem_of_app; right; left|apply nkey_app_new].
Qed.

(** X9: on a skiplist built by any inserts and erases, [find k] returns an
    iterator exactly when [k] is in the list, and that iterator
    dereferences to [k]; after [insert k], [find k] returns an iterator on
    [k]. *)
Theorem find_after_insert (ops : list op) (k : Z) :
  let s := run ops empty in
  (forall id, find k s = Some id -> deref s (Some id) = Some k) /\
  (is_Some (find k s) <-> k ∈ to_list s) /\
  exists id, find k (snd (insert k s)) = Some id /\
             deref (snd (insert k s)) (Some id) = Some k.
Proof.
  intros s. assert (Hw : wf s) by (apply wf_run, wf_empty).
  split; [|split].
  - intros id Hf. apply (find_spec s k id Hw) in Hf as [Hid Hk].
    rewrite (deref_linked s id Hw Hid), Hk. reflexivity.
  - split.
    + intros [id Hf]. apply (find_spec s k id Hw) in Hf as [Hid Hk].
      apply (elem_of_to_list s k Hw). eauto.
    + intros Hk. destruct (find_member s k Hw Hk) as (id & Hf & _). eauto.
  - apply find_member; [apply wf_insert; exact Hw|apply insert_mem_self; exact Hw].
Qed.

(** X10: on a skiplist built by any inserts and erases, [erase(find(k))]
    returns [true] exactly when [k] is in the list; afterwards the iterated
    keys are the former ones without [k], and [find k] returns [end()]. *)
Theorem erase_find_removes_key (ops : list op) (k : Z) :
  let s := run ops empty in
  (fst (erase (find k s) s) = true <-> k ∈ to_list s) /\
  to_list (snd (erase (find k s) s)) = filter (fun z => z <> k) (to_list s) /\
  find k (snd (erase (find k s) s)) = None.
Proof.
  intros s. assert (Hw : wf s) by (apply wf_run, wf_empty).
  pose proof (wf_erase s (find k s) Hw) as Hw'.
  assert (Hlist : to_list (snd (erase (find k s) s)) =
                  filter (fun z => z <> k) (to_list s)).
  { destruct (decide (k ∈ to_list s)) as [Hk|Hk].
    - apply (elem_of_to_list s k Hw) in Hk as (id & Hid & Hk).
      assert (Hf : find k s = Some id) by (apply find_spec; auto).
      rewrite Hf. rewrite (proj2 (erase_linked s id Hw Hid)).
      rewrite (to_list_wf s Hw). apply map_filter_key.
      intros j Hj. split.
      + intros Hjk. apply (wf_key_unique s); auto. congruence.
      + intros ->. exact Hk.
    - destruct (find k s) as [id|] eqn:Hf.
      + exfalso. apply (find_spec s k id Hw) in Hf as [Hid Hk'].
        apply Hk, (elem_of_to_list s k Hw). eauto.
      + simpl. symmetry. apply filter_none_eq. exact Hk. }
  split; [|split; [exact Hlist|]].
  - split.
    + intros He. destruct (find k s) as [id|] eqn:Hf; [|discriminate].
      apply (find_spec s k id Hw) in Hf as [Hid Hk].
      apply (elem_of_to_list s k Hw). eauto.
    + intros Hk. apply (elem_of_to_list s k Hw) in Hk as (id & Hid & Hk).
      assert (Hf : find k s = Some id) by (apply find_spec; auto).
      rewrite Hf. apply (erase_linked s id Hw Hid).
  - destruct (find k (snd (erase (find k s) s))) as [id|] eqn:Hf; [|reflexivity].
    exfalso. apply (find_spec _ k id Hw') in Hf as [Hid Hk].
    assert (Hin : k ∈ to_list (snd (erase (find k s) s)))
      by (apply (elem_of_to_list _ k Hw'); eauto).
    rewrite Hlist in Hin. apply list_elem_of_filter in Hin as [Hne _].
    apply Hne. reflexivity.
Qed.

(** X11: on a skiplist built by any inserts and erases, [erase(begin())]
    removes the smallest key: it returns [true] exactly when the list is
    not empty, and the iterated keys become the former ones without the
    first. *)
Theorem erase_begin_removes_first (ops : list op) :
  let s := run ops empty in
  (fst (erase (begin s) s) = true <-> to_list s <> []) /\
  to_list (snd (erase (begin s) s)) = tail (to_list s).
Proof.
  intros s. assert (Hw : wf s) by (apply wf_run, wf_empty).
  rewrite (to_list_wf s Hw). unfold begin.
  destruct (level0 s) as [|id post] eqn:Hl.
  - simpl. split; [split; [discriminate|congruence]|].
    rewrite (to_list_wf s Hw), Hl. reflexivity.
  - assert (Hid : id ∈ level0 s) by (rewrite Hl; left).
    destruct (wf_live s Hw id Hid) as (n & Hn & Hm).
    simpl. rewrite Hn, Hm.
    destruct (erase_linked s id Hw Hid) as [He Hlist].
    split; [split; [discriminate|intros _; exact He]|].
    rewrite Hlist, Hl. simpl. rewrite filter_cons, decide_False by tauto.
    f_equal. apply filter_none_eq'.
    pose proof (wf_nodup s Hw) as Hnd. rewrite Hl in Hnd.
    apply NoDup_cons in Hnd as [Hnd _]. exact Hnd.
Qed.

(** X12: on a skiplist built by any inserts and erases, reading the range
    from [begin()] to [end()] (as [std::vector values(list.begin(),
    list.end())] does) reaches [end()] within one step per allocated node
    and yields exactly the iterated keys, in strictly increasing order. *)
Theorem iteration_yields_sorted_keys (ops : list op) (extra : nat) :
  let s := run ops empty in
  collect s (length (nodes s) + extra) (begin s) = to_list s /\
  StronglySorted Z.lt (to_list s).
Proof.
  intros s. assert (Hw : wf s) by (apply wf_run, wf_empty).
  rewrite (to_list_wf s Hw). split; [|apply sorted_map, (wf_sorted s Hw)].
  pose proof (level0_length s Hw) as Hlen. unfold begin.
  destruct (level0 s) as [|id post] eqn:Hl.
  - simpl. destruct (length (nodes s) + extra)%nat; reflexivity.
  - assert (Hid : id ∈ level0 s) by (rewrite Hl; left).
    destruct (wf_live s Hw id Hid) as (n & Hn & Hm).
    simpl. rewrite Hn, Hm.
    apply (collect_from s [] id post); [exact Hw|exact Hl|].
    simpl in Hlen. lia.
Qed.

End SkiplistMore.
